(** * Censoring rewrites of pymc.logprob: clipped and rounded random variables

    A shallow embedding of [pymc/logprob/censoring.py]: the two graph
    rewriters [find_measurable_clips] and [find_measurable_roundings], and
    the two log-probability rules [clip_logprob] and [round_logprob].

    The rules build an Aesara expression graph; the graph they return is
    modelled by the inductive type [expr], and what the graph computes by
    the evaluator [eval], which follows the NumPy semantics of the Aesara
    operators that the source calls ([switch], [eq], [gt], [lt], [le],
    [all], [round], [floor], [ceil], [+], [-]). *)

From Stdlib Require Import List String Ascii Bool Arith ZArith QArith Qround Lia Lqa.
Import ListNotations.

Local Open Scope string_scope.
Local Open Scope list_scope.

(** ** Scalars

    An entry of a tensor is a floating-point number: a finite value, one of
    the two infinities or NaN.  The finite values are kept as exact
    rationals (integer entries of a discrete variable are the rationals
    with denominator one); rounding error of [+] and [-] is not modelled. *)

Inductive scalar : Type :=
| NaN
| NegInf
| PosInf
| Fin (q : Q).

(** NumPy comparisons: every comparison with NaN is false. *)

Definition feq (a b : scalar) : bool :=
  match a, b with
  | NegInf, NegInf => true
  | PosInf, PosInf => true
  | Fin p, Fin q => Qeq_bool p q
  | _, _ => false
  end.

Definition flt (a b : scalar) : bool :=
  match a, b with
  | NaN, _ | _, NaN => false
  | NegInf, NegInf => false
  | NegInf, _ => true
  | _, NegInf => false
  | PosInf, _ => false
  | Fin _, PosInf => true
  | Fin p, Fin q => negb (Qle_bool q p)
  end.

Definition fle (a b : scalar) : bool :=
  match a, b with
  | NaN, _ | _, NaN => false
  | NegInf, _ => true
  | _, NegInf => false
  | _, PosInf => true
  | PosInf, Fin _ => false
  | Fin p, Fin q => Qle_bool p q
  end.

Definition fgt (a b : scalar) : bool := flt b a.

(** [np.isinf] and [np.isneginf]. *)

Definition isinf (a : scalar) : bool :=
  match a with
  | NegInf | PosInf => true
  | _ => false
  end.

Definition isneginf (a : scalar) : bool :=
  match a with
  | NegInf => true
  | _ => false
  end.

(** Addition and subtraction are exact.  They agree with the IEEE
    operations wherever those do not round; for the sums [value + 0.5],
    [value - 0.5], [value + 1.0] and [value - 1.0] of [round_logprob],
    taken at an integer [value], that is the case for a magnitude of at
    most 2^9 in float16, 2^22 in float32 and 2^51 in float64.  Statements
    that depend on the value of a sum are made within that range. *)
Definition fadd (a b : scalar) : scalar :=
  match a, b with
  | NaN, _ | _, NaN => NaN
  | NegInf, PosInf | PosInf, NegInf => NaN
  | NegInf, _ | _, NegInf => NegInf
  | PosInf, _ | _, PosInf => PosInf
  | Fin p, Fin q => Fin (Qred (p + q))
  end.

Definition fneg (a : scalar) : scalar :=
  match a with
  | NaN => NaN
  | NegInf => PosInf
  | PosInf => NegInf
  | Fin p => Fin (Qred (- p))
  end.

Definition fsub (a b : scalar) : scalar := fadd a (fneg b).

(** The three rounding functions; infinities and NaN are left alone. *)

Definition Qround_half_even (q : Q) : Z :=
  let f := Qfloor q in
  match Qcompare (q - inject_Z f) (1 # 2) with
  | Lt => f
  | Gt => (f + 1)%Z
  | Eq => if Z.even f then f else (f + 1)%Z
  end.

Definition on_finite (f : Q -> Z) (a : scalar) : scalar :=
  match a with
  | Fin q => Fin (inject_Z (f q))
  | _ => a
  end.

Definition fround : scalar -> scalar := on_finite Qround_half_even.
Definition ffloor : scalar -> scalar := on_finite Qfloor.
Definition fceil : scalar -> scalar := on_finite Qceiling.

(** ** Tensors and broadcasting

    A tensor is the list of its entries; a 0-d tensor has one entry.
    Elementwise operators broadcast a one-entry operand against the other
    one and otherwise need equal lengths. *)

Definition tensor := list scalar.

Inductive exn : Type :=
| ValueError (msg : string)
| IndexError (msg : string)
| AttributeError (msg : string)
| TypeError (msg : string)
| ShapeError
| ParameterValueError (msg : string)
| RuntimeError (msg : string) (names : list string).

Inductive result (A : Type) : Type :=
| Ok (a : A)
| Raise (e : exn).

Arguments Ok {A} a.
Arguments Raise {A} e.

Definition bind {A B} (r : result A) (k : A -> result B) : result B :=
  match r with
  | Ok a => k a
  | Raise e => Raise e
  end.

Notation "x <- r ;; k" := (bind r (fun x => k))
  (at level 61, r at next level, right associativity).

Notation "' pat <- r ;; k" := (bind r (fun x => match x with pat => k end))
  (at level 61, pat pattern, r at next level, right associativity).

Definition broadcast2 {A B C} (f : A -> B -> C) (xs : list A) (ys : list B)
  : result (list C) :=
  match xs, ys with
  | [x], _ => Ok (map (f x) ys)
  | _, [y] => Ok (map (fun x => f x y) xs)
  | _, _ =>
      if Nat.eqb (List.length xs) (List.length ys)
      then Ok (map (fun p => f (fst p) (snd p)) (combine xs ys))
      else Raise ShapeError
  end.

Definition select (c : bool) (ab : scalar * scalar) : scalar :=
  if c then fst ab else snd ab.

(** ** Graphs

    A variable of an Aesara graph has an identity (Python's [is]), which is
    modelled by a number given at allocation, an optional owner (the node
    that computes it: an operator and its inputs), a dtype and an optional
    name.  A [TensorConstant] carries its data. *)

Inductive scalar_op : Type :=
| Clip
| RoundHalfToEven
| Floor
| Ceil
| OtherScalarOp (name : string).

Inductive op_class : Type :=
| Elemwise (s : scalar_op)
| MeasurableClip (s : scalar_op)
| MeasurableRound (s : scalar_op)
| RandomVariable (dist : string)
| OtherOp (kind : string) (registered_measurable : bool).

Record op : Type := mk_op {
  op_class_of : op_class;
  op_name : string;        (* [op.name]; the empty string is falsy *)
  op_repr : string;        (* [str(op)] *)
  unmeasurable : bool      (* set by [assign_custom_measurable_outputs] *)
}.

#[local] Set Warnings "-register-all".

Inductive var : Type :=
| TensorVariable (id : nat) (owner : option (op * list var))
    (dtype : string) (name : option string)
| TensorConstant (id : nat) (value : tensor) (dtype : string).

Record Node : Type := mk_node {
  node_op : op;
  node_inputs : list var;
  node_outputs : list var
}.

Record PreserveRVMappings : Type := mk_rv_map {
  rv_values : list (var * var)   (* random variable -> value variable *)
}.

Record FunctionGraph : Type := mk_fgraph {
  preserve_rv_mappings : option PreserveRVMappings
}.

Definition var_id (v : var) : nat :=
  match v with
  | TensorVariable id _ _ _ => id
  | TensorConstant id _ _ => id
  end.

Definition var_owner (v : var) : option (op * list var) :=
  match v with
  | TensorVariable _ owner _ _ => owner
  | TensorConstant _ _ _ => None
  end.

Definition var_dtype (v : var) : string :=
  match v with
  | TensorVariable _ _ dtype _ => dtype
  | TensorConstant _ _ dtype => dtype
  end.

Definition var_name (v : var) : option string :=
  match v with
  | TensorVariable _ _ _ name => name
  | TensorConstant _ _ _ => None
  end.

Definition set_name (name : option string) (v : var) : var :=
  match v with
  | TensorVariable id owner dtype _ => TensorVariable id owner dtype name
  | TensorConstant _ _ _ => v
  end.

(** Python's [a is b]. *)
Definition var_is (a b : var) : bool := Nat.eqb (var_id a) (var_id b).

(** [v in rv_values]: variables are hashed and compared by identity. *)
Definition in_rv_values (v : var) (m : PreserveRVMappings) : bool :=
  existsb (fun kv => var_is (fst kv) v) (rv_values m).

(** [s.startswith(p)]. *)
Definition startswith (s p : string) : bool := String.prefix p s.

(** *** Class tests *)

Definition isinstance_Elemwise (o : op) : bool :=
  match op_class_of o with
  | Elemwise _ | MeasurableClip _ | MeasurableRound _ => true
  | _ => false
  end.

Definition isinstance_MeasurableClip (o : op) : bool :=
  match op_class_of o with
  | MeasurableClip _ => true
  | _ => false
  end.

Definition isinstance_MeasurableRound (o : op) : bool :=
  match op_class_of o with
  | MeasurableRound _ => true
  | _ => false
  end.

Definition scalar_op_of (o : op) : option scalar_op :=
  match op_class_of o with
  | Elemwise s | MeasurableClip s | MeasurableRound s => Some s
  | _ => None
  end.

Definition is_Clip (s : option scalar_op) : bool :=
  match s with
  | Some Clip => true
  | _ => false
  end.

(** [MeasurableRound.valid_scalar_types = (RoundHalfToEven, Floor, Ceil)]. *)
Definition valid_round_scalar_type (s : option scalar_op) : bool :=
  match s with
  | Some RoundHalfToEven | Some Floor | Some Ceil => true
  | _ => false
  end.

(** [isinstance(op, MeasurableVariable)]: random-variable operators and the
    measurable elementwise operators carry the capability, unless it has
    been taken away from this operator instance. *)
Definition isinstance_MeasurableVariable (o : op) : bool :=
  match op_class_of o with
  | RandomVariable _ | MeasurableClip _ | MeasurableRound _ =>
      negb (unmeasurable o)
  | OtherOp _ registered => registered && negb (unmeasurable o)
  | Elemwise _ => false
  end.

(** *** Allocation of new graph objects: the next free identity is passed
    along explicitly. *)

(** [at.constant(x)] for a Python float [x]. *)
Definition at_constant (x : scalar) (next : nat) : var * nat :=
  (TensorConstant next [x] "float64", S next).

(** Modelled from the spec: [assign_custom_measurable_outputs] of
    [pymc.logprob.abstract] is not part of the sources at hand.  It returns
    a copy of the base variable whose defining operator has lost the
    measurable capability ("strips the measurable capability from base's
    defining node"); operator kind, inputs, dtype and name are kept. *)
Definition assign_custom_measurable_outputs (base_var : var) (next : nat)
  : var * nat :=
  match base_var with
  | TensorVariable _ (Some (o, inputs)) dtype name =>
      let o' := mk_op (op_class_of o) (op_name o) (op_repr o) true in
      (TensorVariable next (Some (o', inputs)) dtype name, S next)
  | _ => (base_var, next)
  end.

(** The output of [op.make_node] on the inputs: a new variable owned by the new
    node; a replacement has the type of the variable it replaces. *)
Definition make_node_output (o : op) (inputs : list var) (dtype : string)
  (next : nat) : var * nat :=
  (TensorVariable next (Some (o, inputs)) dtype None, S next).

(** [measurable_clip = MeasurableClip(scalar_clip)]. *)
Definition measurable_clip : op :=
  mk_op (MeasurableClip Clip) "" "MeasurableClip{clip}" false.

Definition measurable_round (s : scalar_op) : op :=
  mk_op (MeasurableRound s) "" "MeasurableRound" false.

(** ** The rewriters *)

Definition eligible_base (base_var : var) (m : PreserveRVMappings) : bool :=
  match var_owner base_var with
  | Some (o, _) =>
      isinstance_MeasurableVariable o && negb (in_rv_values base_var m)
  | None => false
  end.

Definition find_measurable_clips (fgraph : FunctionGraph) (node : Node)
  (next : nat) : result (option (list var)) * nat :=
  match preserve_rv_mappings fgraph with
  | None => (Ok None, next)
  | Some rv_map_feature =>
    if isinstance_MeasurableClip (node_op node) then (Ok None, next)
    else if negb (isinstance_Elemwise (node_op node)
                  && is_Clip (scalar_op_of (node_op node)))
    then (Ok None, next)
    else
      match node_outputs node with
      | [] => (Raise (IndexError "list index out of range"), next)
      | clipped_var :: _ =>
        match node_inputs node with
        | [base_var; lower_bound; upper_bound] =>
          if negb (eligible_base base_var rv_map_feature) then (Ok None, next)
          else
            let '(lower_bound, next) :=
              if negb (var_is lower_bound base_var) then (lower_bound, next)
              else at_constant NegInf next in
            let '(upper_bound, next) :=
              if negb (var_is upper_bound base_var) then (upper_bound, next)
              else at_constant PosInf next in
            let '(unmeasurable_base_var, next) :=
              assign_custom_measurable_outputs base_var next in
            let '(clipped_rv, next) :=
              make_node_output measurable_clip
                [unmeasurable_base_var; lower_bound; upper_bound]
                (var_dtype clipped_var) next in
            let clipped_rv := set_name (var_name clipped_var) clipped_rv in
            (Ok (Some [clipped_rv]), next)
        | _ => (Raise (ValueError "wrong number of values to unpack"), next)
        end
      end
  end.

Definition find_measurable_roundings (fgraph : FunctionGraph) (node : Node)
  (next : nat) : result (option (list var)) * nat :=
  match preserve_rv_mappings fgraph with
  | None => (Ok None, next)
  | Some rv_map_feature =>
    if isinstance_MeasurableRound (node_op node) then (Ok None, next)
    else if negb (isinstance_Elemwise (node_op node)
                  && valid_round_scalar_type (scalar_op_of (node_op node)))
    then (Ok None, next)
    else
      match node_outputs node, node_inputs node, scalar_op_of (node_op node) with
      | [rounded_var], [base_var], Some s =>
          if negb (eligible_base base_var rv_map_feature
                   && startswith (var_dtype base_var) "float")
          then (Ok None, next)
          else
            let '(unmeasurable_base_var, next) :=
              assign_custom_measurable_outputs base_var next in
            let rounded_op := measurable_round s in
            let '(rounded_rv, next) :=
              make_node_output rounded_op [unmeasurable_base_var]
                (var_dtype rounded_var) next in
            let rounded_rv := set_name (var_name rounded_var) rounded_rv in
            (Ok (Some [rounded_rv]), next)
      | _, _, _ => (Raise (ValueError "wrong number of values to unpack"), next)
      end
  end.

(** ** Log-probability graphs

    The expressions that the two rules assemble.  Leaves are variables of
    the model graph (the value variable, the bounds) and Python float
    literals; [BaseLogprob] and [BaseLogcdf] stand for the graphs that the
    dispatchers [_logprob] and [_logcdf] return for the base operator.
    Boolean tensors have an expression type of their own. *)

Inductive expr : Type :=
| EVar (v : var)
| ELit (x : scalar)
| at_switch (c : bexpr) (a b : expr)
| at_log1mexp (a : expr)
| at_logaddexp (a b : expr)
| logdiffexp_of (a b : expr)
| BaseLogprob (name : option string) (o : op) (value : expr) (inputs : list var)
| BaseLogcdf (name : option string) (o : op) (value : expr) (inputs : list var)
| CheckParameterValue (msg : string) (e : expr) (c : bexpr)
| at_round (a : expr)
| at_floor (a : expr)
| at_ceil (a : expr)
| at_add (a b : expr)
| at_sub (a b : expr)
with bexpr : Type :=
| at_eq (a b : expr)
| at_gt (a b : expr)
| at_lt (a b : expr)
| at_le (a b : expr)
| at_all (c : bexpr).

Definition _logprob (o : op) (value : expr) (inputs : list var) : expr :=
  BaseLogprob None o value inputs.

Definition _logcdf (o : op) (value : expr) (inputs : list var) : expr :=
  BaseLogcdf None o value inputs.

(** [x.name = s] on the graph a dispatcher returned. *)
Definition named (s : string) (e : expr) : expr :=
  match e with
  | BaseLogprob _ o value inputs => BaseLogprob (Some s) o value inputs
  | BaseLogcdf _ o value inputs => BaseLogcdf (Some s) o value inputs
  | _ => e
  end.

(** Truthiness of a Python string. *)
Definition truthy (s : string) : bool :=
  match s with
  | EmptyString => false
  | _ => true
  end.

(** [isinstance(b, TensorConstant) and np.all(np.isinf(b.value))]. *)
Definition is_inf_constant (b : var) : bool :=
  match b with
  | TensorConstant _ value _ => forallb isinf value
  | TensorVariable _ _ _ _ => false
  end.

(** [isinstance(b, TensorConstant) and np.all(np.isneginf(b.value))]. *)
Definition is_neginf_constant (b : var) : bool :=
  match b with
  | TensorConstant _ value _ => forallb isneginf value
  | TensorVariable _ _ _ _ => false
  end.

Definition clip_logprob (o : op) (values : list var)
  (base_rv lower_bound upper_bound : var) : result expr :=
  match values with
  | [value] =>
    match var_owner base_rv with
    | None => Raise (AttributeError "'NoneType' object has no attribute 'op'")
    | Some (base_rv_op, base_rv_inputs) =>
      let logprob := _logprob base_rv_op (EVar value) base_rv_inputs in
      let logcdf := _logcdf base_rv_op (EVar value) base_rv_inputs in
      let logprob :=
        if truthy (op_name base_rv_op)
        then named (op_repr base_rv_op ++ "_logprob") logprob else logprob in
      let logcdf :=
        if truthy (op_name base_rv_op)
        then named (op_repr base_rv_op ++ "_logcdf") logcdf else logcdf in
      let is_upper_bounded := negb (is_inf_constant upper_bound) in
      let logprob :=
        if is_upper_bounded then
          let logccdf := at_log1mexp logcdf in
          let logccdf :=
            if startswith (var_dtype base_rv) "int"
            then at_logaddexp logccdf logprob else logccdf in
          at_switch (at_eq (EVar value) (EVar upper_bound))
            logccdf
            (at_switch (at_gt (EVar value) (EVar upper_bound))
               (ELit NegInf) logprob)
        else logprob in
      let is_lower_bounded := negb (is_neginf_constant lower_bound) in
      let logprob :=
        if is_lower_bounded then
          at_switch (at_eq (EVar value) (EVar lower_bound))
            logcdf
            (at_switch (at_lt (EVar value) (EVar lower_bound))
               (ELit NegInf) logprob)
        else logprob in
      let logprob :=
        if is_lower_bounded && is_upper_bounded then
          CheckParameterValue "lower_bound <= upper_bound" logprob
            (at_all (at_le (EVar lower_bound) (EVar upper_bound)))
        else logprob in
      Ok logprob
    end
  | _ => Raise (ValueError "wrong number of values to unpack")
  end.

Definition half : scalar := Fin (1 # 2).
Definition one : scalar := Fin 1.

Definition round_logprob (o : op) (values : list var) (base_rv : var)
  : result expr :=
  match values with
  | [value] =>
    match scalar_op_of o with
    | None => Raise (AttributeError "scalar_op")
    | Some s =>
      let bracket :=
        match s with
        | RoundHalfToEven =>
            let value := at_round (EVar value) in
            Ok (at_add value (ELit half), at_sub value (ELit half))
        | Floor =>
            let value := at_floor (EVar value) in
            Ok (at_add value (ELit one), value)
        | Ceil =>
            let value := at_ceil (EVar value) in
            Ok (value, at_sub value (ELit one))
        | _ => Raise (TypeError "Unsupported scalar_op")
        end in
      '(value_upper, value_lower) <- bracket ;;
      match var_owner base_rv with
      | None => Raise (AttributeError "'NoneType' object has no attribute 'op'")
      | Some (base_rv_op, base_rv_inputs) =>
        let logcdf_upper := _logcdf base_rv_op value_upper base_rv_inputs in
        let logcdf_lower := _logcdf base_rv_op value_lower base_rv_inputs in
        let logcdf_upper :=
          if truthy (op_name base_rv_op)
          then named (op_repr base_rv_op ++ "_logcdf_upper") logcdf_upper
          else logcdf_upper in
        let logcdf_lower :=
          if truthy (op_name base_rv_op)
          then named (op_repr base_rv_op ++ "_logcdf_lower") logcdf_lower
          else logcdf_lower in
        Ok (logdiffexp_of logcdf_upper logcdf_lower)
      end
    end
  | _ => Raise (ValueError "wrong number of values to unpack")
  end.

(** ** Evaluation

    The base distributions and the log-space primitives belong to other
    modules; they are arbitrary functions here.  A base log-probability
    is dispatched on the operator kind, is given the inputs of the base
    variable (the parameters of the distribution) and acts entry by entry
    on the value. *)

Definition env := nat -> tensor.

Record primitives : Type := mk_primitives {
  base_logprob : op_class -> list var -> scalar -> scalar;
  base_logcdf : op_class -> list var -> scalar -> scalar;
  log1mexp : scalar -> scalar;
  logaddexp : scalar -> scalar -> scalar;
  logdiffexp : scalar -> scalar -> scalar
}.

Section Evaluation.

Variable P : primitives.
Variable rho : env.

Definition lookup (v : var) : tensor :=
  match v with
  | TensorConstant _ value _ => value
  | TensorVariable id _ _ _ => rho id
  end.

Fixpoint eval (e : expr) : result tensor :=
  match e with
  | EVar v => Ok (lookup v)
  | ELit x => Ok [x]
  | at_switch c a b =>
      cs <- eval_b c ;;
      xs <- eval a ;;
      ys <- eval b ;;
      ps <- broadcast2 pair xs ys ;;
      broadcast2 select cs ps
  | at_log1mexp a => xs <- eval a ;; Ok (map (log1mexp P) xs)
  | at_logaddexp a b =>
      xs <- eval a ;; ys <- eval b ;; broadcast2 (logaddexp P) xs ys
  | logdiffexp_of a b =>
      xs <- eval a ;; ys <- eval b ;; broadcast2 (logdiffexp P) xs ys
  | BaseLogprob _ o value inputs =>
      xs <- eval value ;;
      Ok (map (base_logprob P (op_class_of o) inputs) xs)
  | BaseLogcdf _ o value inputs =>
      xs <- eval value ;;
      Ok (map (base_logcdf P (op_class_of o) inputs) xs)
  | CheckParameterValue msg e c =>
      xs <- eval e ;;
      cs <- eval_b c ;;
      if forallb (fun b => b) cs then Ok xs
      else Raise (ParameterValueError msg)
  | at_round a => xs <- eval a ;; Ok (map fround xs)
  | at_floor a => xs <- eval a ;; Ok (map ffloor xs)
  | at_ceil a => xs <- eval a ;; Ok (map fceil xs)
  | at_add a b => xs <- eval a ;; ys <- eval b ;; broadcast2 fadd xs ys
  | at_sub a b => xs <- eval a ;; ys <- eval b ;; broadcast2 fsub xs ys
  end
with eval_b (c : bexpr) : result (list bool) :=
  match c with
  | at_eq a b => xs <- eval a ;; ys <- eval b ;; broadcast2 feq xs ys
  | at_gt a b => xs <- eval a ;; ys <- eval b ;; broadcast2 fgt xs ys
  | at_lt a b => xs <- eval a ;; ys <- eval b ;; broadcast2 flt xs ys
  | at_le a b => xs <- eval a ;; ys <- eval b ;; broadcast2 fle xs ys
  | at_all c => cs <- eval_b c ;; Ok [forallb (fun b => b) cs]
  end.

End Evaluation.

(** ** The joint log-probability driver *)

(** The rule registered for an operator kind ([_logprob.register]); a
    measurable node hands its inputs to the rule. *)
Definition logprob_rule (o : op) (values : list var) (inputs : list var)
  : result expr :=
  match op_class_of o with
  | MeasurableClip _ =>
      match inputs with
      | [base_rv; lower_bound; upper_bound] =>
          clip_logprob o values base_rv lower_bound upper_bound
      | _ => Raise (TypeError "clip_logprob: wrong number of arguments")
      end
  | MeasurableRound _ =>
      match inputs with
      | [base_rv] => round_logprob o values base_rv
      | _ => Raise (TypeError "round_logprob: wrong number of arguments")
      end
  | _ =>
      match values with
      | [value] => Ok (_logprob o (EVar value) inputs)
      | _ => Raise (ValueError "wrong number of values to unpack")
      end
  end.

(** Modelled from the spec: the graph state of the rewrite pass.  A
    rewrite that is accepted takes the measurable capability away from
    the base variable it consumes, and every later match reads the base
    in that state ("only the first rewrite accepted strips the capability,
    and the second match attempt necessarily fails its eligibility check").
    The state is the side table of the identities of the base variables
    claimed so far; [strip_claimed] gives a variable as the graph then
    holds it: the same identity, with the capability of its operator
    taken away when it has been claimed. *)
Definition strip_claimed (claimed : list nat) (v : var) : var :=
  match v with
  | TensorVariable id (Some (o, inputs)) dtype name =>
      if existsb (Nat.eqb id) claimed
      then TensorVariable id
             (Some (mk_op (op_class_of o) (op_name o) (op_repr o) true,
                    inputs))
             dtype name
      else v
  | _ => v
  end.

(** The base variable that a matched node consumes is its first input. *)
Definition claimed_base (inputs : list var) : list nat :=
  match inputs with
  | base_var :: _ => [var_id base_var]
  | [] => []
  end.

(** One step of the rewrite pass on the node that defines [rv]: the node,
    with its inputs as the graph holds them, is offered to the clip
    matcher and then to the rounding matcher; a proposed replacement takes
    the place of [rv] and claims the base variable. *)
Definition rewrite_var (fgraph : FunctionGraph) (claimed : list nat)
  (rv : var) (next : nat) : result (var * list nat) * nat :=
  match var_owner rv with
  | None => (Ok (rv, claimed), next)
  | Some (o, inputs) =>
      let node := mk_node o (map (strip_claimed claimed) inputs) [rv] in
      match find_measurable_clips fgraph node next with
      | (Raise e, next) => (Raise e, next)
      | (Ok (Some (new_rv :: _)), next) =>
          (Ok (new_rv, claimed_base inputs ++ claimed), next)
      | (Ok _, next) =>
          match find_measurable_roundings fgraph node next with
          | (Raise e, next) => (Raise e, next)
          | (Ok (Some (new_rv :: _)), next) =>
              (Ok (new_rv, claimed_base inputs ++ claimed), next)
          | (Ok _, next) => (Ok (rv, claimed), next)
          end
      end
  end.

Definition diagnostic_name (v : var) : string :=
  match var_name v with
  | Some s => s
  | None => "<unnamed>"
  end.

(** Walks the observed-value mapping in order, rewriting as it goes: the
    terms derived, and the diagnostic names of the observed nodes for
    which no term could be derived. *)
Fixpoint derive_terms (fgraph : FunctionGraph) (claimed : list nat)
  (todo : list (var * var)) (next : nat)
  : result (list (var * expr) * list string) :=
  match todo with
  | [] => Ok ([], [])
  | (rv, value) :: todo' =>
      let '(r, next) := rewrite_var fgraph claimed rv next in
      '(rv', claimed') <- r ;;
      '(terms, missing) <- derive_terms fgraph claimed' todo' next ;;
      match var_owner rv' with
      | Some (o, inputs) =>
          if isinstance_MeasurableVariable o then
            term <- logprob_rule o [value] inputs ;;
            Ok ((value, term) :: terms, missing)
          else Ok (terms, diagnostic_name rv :: missing)
      | None => Ok (terms, diagnostic_name rv :: missing)
      end
  end.

(** Modelled from the spec: the driver [factorized_joint_logprob] of
    [pymc.logprob.joint_logprob] is not part of the sources at hand.  It
    installs the observed-value mapping on the graph, lets the rewrite pass
    run, invokes the density rule of every observed variable whose node is
    measurable, and raises the "could not be derived" failure, with the
    diagnostic names of the nodes concerned, when a term is missing. *)
Definition factorized_joint_logprob (rv_values : list (var * var))
  (next : nat) : result (list (var * expr)) :=
  let fgraph := mk_fgraph (Some (mk_rv_map rv_values)) in
  '(terms, missing) <- derive_terms fgraph [] rv_values next ;;
  match missing with
  | [] => Ok terms
  | _ :: _ =>
      Raise (RuntimeError
               "The logprob terms of the following variables could not be derived"
               missing)
  end.

(** ** A base distribution with exact log-space values

    The point mass at zero: its CDF is 0 below zero and 1 from zero on, so
    every log-space quantity is 0 or minus infinity, and the primitives are
    exact on these two arguments. *)

Definition dirac_logprob (v : scalar) : scalar :=
  match v with
  | NaN => NaN
  | _ => if feq v (Fin 0) then Fin 0 else NegInf
  end.

Definition dirac_logcdf (v : scalar) : scalar :=
  match v with
  | NaN => NaN
  | _ => if flt v (Fin 0) then NegInf else Fin 0
  end.

(** [log(1 - exp x)] at 0 and at minus infinity. *)
Definition log1mexp_01 (x : scalar) : scalar :=
  match x with
  | NegInf => Fin 0
  | Fin q => if Qeq_bool q 0 then NegInf else NaN
  | _ => NaN
  end.

(** [log(exp a + exp b)] when one of the two is minus infinity. *)
Definition logaddexp_01 (a b : scalar) : scalar :=
  match a, b with
  | NegInf, _ => b
  | _, NegInf => a
  | _, _ => NaN
  end.

(** [log(exp a - exp b)] when [b] is minus infinity or [a = b]. *)
Definition logdiffexp_01 (a b : scalar) : scalar :=
  match a, b with
  | NaN, _ | _, NaN => NaN
  | _, NegInf => a
  | _, _ => if feq a b then NegInf else NaN
  end.

Definition dirac : primitives :=
  mk_primitives (fun _ _ => dirac_logprob) (fun _ _ => dirac_logcdf)
    log1mexp_01 logaddexp_01 logdiffexp_01.

(** *** A small model: [x], its clips and its roundings *)

Definition dirac_rv : op := mk_op (RandomVariable "dirac") "dirac" "dirac_rv" false.

Definition x_rv : var := TensorVariable 0 (Some (dirac_rv, [])) "float64" (Some "x").
Definition k_rv : var := TensorVariable 5 (Some (dirac_rv, [])) "int64" (Some "k").
Definition u_rv : var := TensorVariable 6 (Some (dirac_rv, [])) "uint8" (Some "u").
Definition lower_c : var := TensorVariable 1 None "float64" (Some "lower").
Definition upper_c : var := TensorVariable 2 None "float64" (Some "upper").
Definition value_v : var := TensorVariable 3 None "float64" (Some "value").

Definition elemwise (s : scalar_op) : op := mk_op (Elemwise s) "" "Elemwise" false.

Definition clip_node (base lower upper : var) (name : string) : Node :=
  mk_node (elemwise Clip) [base; lower; upper]
    [TensorVariable 4 (Some (elemwise Clip, [base; lower; upper]))
       (var_dtype base) (Some name)].

(** The environment that gives the value variable and the two bounds one
    entry each. *)
Definition env3 (v lo up : scalar) : env :=
  fun id =>
    match id with
    | 1%nat => [lo]
    | 2%nat => [up]
    | 3%nat => [v]
    | _ => []
    end.

(** ** Entry-wise reading of the clip graph

    What the nested switches of [clip_logprob] select for one entry [v] of
    the value, given the entries [lo] and [up] of the bounds, the base
    log-probability [lp] and the base log-CDF [lc] at [v]. *)

Definition upper_mass (P : primitives) (int_dtype : bool) (lc lp : scalar)
  : scalar :=
  if int_dtype then logaddexp P (log1mexp P lc) lp else log1mexp P lc.

Definition upper_switch (P : primitives) (int_dtype : bool)
  (lp lc v up : scalar) : scalar :=
  if feq v up then upper_mass P int_dtype lc lp
  else if fgt v up then NegInf else lp.

Definition lower_switch (lc v lo rest : scalar) : scalar :=
  if feq v lo then lc else if flt v lo then NegInf else rest.

Definition clip_pointwise (P : primitives)
  (is_lower_bounded is_upper_bounded int_dtype : bool)
  (lp lc v lo up : scalar) : scalar :=
  let inner :=
    if is_upper_bounded then upper_switch P int_dtype lp lc v up else lp in
  if is_lower_bounded then lower_switch lc v lo inner else inner.

(** ** Entry-wise reading of the rounding graph

    The rounding function of a kind, and the bracketing points
    [(value_lower, value_upper)] of a point [v] for that kind. *)

Definition snap (s : scalar_op) (v : scalar) : scalar :=
  match s with
  | RoundHalfToEven => fround v
  | Floor => ffloor v
  | Ceil => fceil v
  | _ => v
  end.

Definition bracket (s : scalar_op) (v : scalar) : scalar * scalar :=
  match s with
  | RoundHalfToEven => (fsub v half, fadd v half)
  | Floor => (v, fadd v one)
  | Ceil => (fsub v one, v)
  | _ => (v, v)
  end.

(** Whether a [CheckParameterValue] occurs in a graph. *)
Fixpoint contains_check (e : expr) : bool :=
  match e with
  | EVar _ | ELit _ => false
  | at_switch c a b =>
      contains_check_b c || contains_check a || contains_check b
  | at_log1mexp a | at_round a | at_floor a | at_ceil a => contains_check a
  | at_logaddexp a b | logdiffexp_of a b | at_add a b | at_sub a b =>
      contains_check a || contains_check b
  | BaseLogprob _ _ value _ | BaseLogcdf _ _ value _ => contains_check value
  | CheckParameterValue _ _ _ => true
  end
with contains_check_b (c : bexpr) : bool :=
  match c with
  | at_eq a b | at_gt a b | at_lt a b | at_le a b =>
      contains_check a || contains_check b
  | at_all c => contains_check_b c
  end.

(** *** Constants of the examples: the bounds of [at.clip(x, 0, 0)] and of
    [at.clip(x, 1, 0)]. *)

Definition zero_lower : var := TensorConstant 1 [Fin 0] "int8".
Definition zero_upper : var := TensorConstant 2 [Fin 0] "int8".
Definition one_lower : var := TensorConstant 1 [Fin 1] "int8".

(** * Properties *)

(** ** The order on scalars *)

Module ScalarOrder.

Lemma Qle_bool_false (p q : Q) : Qle_bool p q = false -> (q < p)%Q.
Proof.
  intros H. apply Qnot_le_lt. intros Hle.
  apply Qle_bool_iff in Hle. congruence.
Qed.

(** Turns the boolean tests on rationals that are in the context and in the
    goal into propositions. *)
Ltac q_reflect :=
  repeat match goal with
  | H : negb _ = true |- _ => apply negb_true_iff in H
  | H : negb _ = false |- _ => apply negb_false_iff in H
  | H : Qle_bool _ _ = true |- _ => apply Qle_bool_iff in H
  | H : Qle_bool _ _ = false |- _ => apply Qle_bool_false in H
  | H : Qeq_bool _ _ = true |- _ => apply Qeq_bool_iff in H
  | H : Qeq_bool _ _ = false |- _ => apply Qeq_bool_neq in H
  | |- negb _ = false => apply negb_false_iff
  | |- negb _ = true => apply negb_true_iff
  | |- Qle_bool _ _ = true => apply Qle_bool_iff
  | |- Qle_bool ?p ?q = false =>
      destruct (Qle_bool p q) eqn:?; [exfalso | reflexivity]
  | |- Qeq_bool ?p ?q = false =>
      destruct (Qeq_bool p q) eqn:?; [exfalso | reflexivity]
  end.

Ltac scalar_cases :=
  intros;
  repeat match goal with
  | x : scalar |- _ => destruct x
  end;
  simpl in *; try congruence; try (split; congruence);
  q_reflect; try split; q_reflect; try lra.

Lemma flt_not_feq a b : flt a b = true -> feq a b = false.
Proof. scalar_cases. Qed.

Lemma flt_not_feq_sym a b : flt a b = true -> feq b a = false.
Proof. scalar_cases. Qed.

Lemma flt_asym a b : flt a b = true -> flt b a = false.
Proof. scalar_cases. Qed.

Lemma feq_not_flt a b : feq a b = true -> flt a b = false.
Proof. scalar_cases. Qed.

Lemma feq_not_fgt a b : feq a b = true -> fgt a b = false.
Proof. unfold fgt. scalar_cases. Qed.

(** Above the upper bound of an ordered pair of bounds means off the lower
    bound and not below it. *)
Lemma above_upper_not_lower v lo up :
  fle lo up = true -> fgt v up = true ->
  feq v lo = false /\ flt v lo = false.
Proof. unfold fgt. scalar_cases. Qed.

(** Below the lower bound of an ordered pair of bounds means off the upper
    bound and not above it. *)
Lemma below_lower_not_upper v lo up :
  fle lo up = true -> flt v lo = true ->
  feq v up = false /\ fgt v up = false.
Proof. unfold fgt. scalar_cases. Qed.

Lemma on_upper_not_below_lower v lo up :
  fle lo up = true -> feq v up = true -> flt v lo = false.
Proof. scalar_cases. Qed.

Lemma flt_trans_fle lo v up :
  flt lo v = true -> flt v up = true -> fle lo up = true.
Proof. scalar_cases. Qed.

Lemma fle_refl_feq a b : feq a b = true -> fle a b = true.
Proof. scalar_cases. Qed.

End ScalarOrder.

(** ** Rounding functions *)

Lemma Qround_half_even_Z (z : Z) : Qround_half_even (inject_Z z) = z.
Proof.
  unfold Qround_half_even. rewrite Qfloor_Z.
  assert (H : Qcompare (inject_Z z - inject_Z z) (1 # 2) = Lt)
    by (apply (proj1 (Qlt_alt _ _)); lra).
  rewrite H. reflexivity.
Qed.

Lemma fround_idempotent v : fround (fround v) = fround v.
Proof.
  destruct v; try reflexivity.
  unfold fround, on_finite. now rewrite Qround_half_even_Z.
Qed.

Lemma ffloor_idempotent v : ffloor (ffloor v) = ffloor v.
Proof.
  destruct v; try reflexivity.
  unfold ffloor, on_finite. now rewrite Qfloor_Z.
Qed.

Lemma fceil_idempotent v : fceil (fceil v) = fceil v.
Proof.
  destruct v; try reflexivity.
  unfold fceil, on_finite. now rewrite Qceiling_Z.
Qed.

(** ** Dtype prefixes *)

Lemma float_dtype_not_int (d : string) :
  startswith d "float" = true -> startswith d "int" = false.
Proof.
  unfold startswith. intros H.
  destruct d as [|c d]; cbn [String.prefix] in *; [discriminate|].
  destruct (ascii_dec "f" c) as [<-|]; [|discriminate].
  destruct (ascii_dec "i" "f"); [discriminate | reflexivity].
Qed.

Lemma int_dtype_not_float (d : string) :
  startswith d "int" = true -> startswith d "float" = false.
Proof.
  intros H. destruct (startswith d "float") eqn:E; [|reflexivity].
  apply float_dtype_not_int in E. congruence.
Qed.

Lemma uint_dtype_not_float (d : string) :
  startswith d "uint" = true -> startswith d "float" = false.
Proof.
  unfold startswith. intros H.
  destruct d as [|c d]; cbn [String.prefix] in *; [discriminate|].
  destruct (ascii_dec "u" c) as [<-|]; [|discriminate].
  destruct (ascii_dec "f" "u"); [discriminate | reflexivity].
Qed.

(** ** Broadcasting *)

Lemma broadcast2_scalar_r {A B C} (f : A -> B -> C) xs y :
  broadcast2 f xs [y] = Ok (map (fun x => f x y) xs).
Proof. destruct xs as [|x [|x' xs]]; reflexivity. Qed.

(** ** Evaluation of the graphs built by the rules *)

Section RuleEvaluation.

Variable P : primitives.
Variable rho : env.

Lemma eval_named s e : eval P rho (named s e) = eval P rho e.
Proof. destruct e; reflexivity. Qed.

(** The graph of [clip_logprob] at one-entry tensors: the bound-order check
    and, when it passes, the entry-wise selection. *)
Lemma clip_logprob_eval o value base_rv lower_bound upper_bound
      base_rv_op base_rv_inputs v lo up :
  var_owner base_rv = Some (base_rv_op, base_rv_inputs) ->
  lookup rho value = [v] ->
  lookup rho lower_bound = [lo] ->
  lookup rho upper_bound = [up] ->
  exists e,
    clip_logprob o [value] base_rv lower_bound upper_bound = Ok e /\
    eval P rho e =
      if negb (is_neginf_constant lower_bound)
         && negb (is_inf_constant upper_bound)
         && negb (fle lo up)
      then Raise (ParameterValueError "lower_bound <= upper_bound")
      else Ok [clip_pointwise P
                 (negb (is_neginf_constant lower_bound))
                 (negb (is_inf_constant upper_bound))
                 (startswith (var_dtype base_rv) "int")
                 (base_logprob P (op_class_of base_rv_op) base_rv_inputs v)
                 (base_logcdf P (op_class_of base_rv_op) base_rv_inputs v)
                 v lo up].
Proof.
  intros Howner Hv Hlo Hup.
  unfold clip_logprob. rewrite Howner.
  eexists. split; [reflexivity|].
  unfold clip_pointwise, upper_switch, lower_switch, upper_mass, _logprob, _logcdf.
  destruct (truthy (op_name base_rv_op));
    destruct (is_neginf_constant lower_bound);
    destruct (is_inf_constant upper_bound);
    destruct (startswith (var_dtype base_rv) "int");
    cbn [negb andb named eval eval_b bind];
    rewrite ?Hv, ?Hlo, ?Hup;
    cbn [negb andb named eval eval_b bind broadcast2 map select fst snd forallb];
    try reflexivity;
    destruct (fle lo up); cbn [negb andb forallb]; try reflexivity;
    destruct (feq v lo), (flt v lo), (feq v up), (fgt v up); reflexivity.
Qed.

End RuleEvaluation.

(** ** The clip rule *)

Import ScalarOrder.

(** C1, as amended.  For a clip of a float-valued base variable between two
    bounds that are not infinity sentinels, and with the entry [lo] of the
    lower bound at most the entry [up] of the upper bound, the graph of
    [clip_logprob] evaluates at the value [v] to: minus infinity when
    [v < lo] or [v > up]; the base log-CDF at [v] when [v == lo]; [log1mexp]
    of the base log-CDF at [v] when [v == up] and [v] is not also equal to
    [lo]; the base log-probability at [v] when [lo < v < up]. *)
Theorem clip_logprob_two_sided_continuous
    P rho o value base_rv lower_bound upper_bound
    base_rv_op base_rv_inputs v lo up :
  var_owner base_rv = Some (base_rv_op, base_rv_inputs) ->
  startswith (var_dtype base_rv) "float" = true ->
  is_neginf_constant lower_bound = false ->
  is_inf_constant upper_bound = false ->
  lookup rho value = [v] ->
  lookup rho lower_bound = [lo] ->
  lookup rho upper_bound = [up] ->
  fle lo up = true ->
  exists e,
    clip_logprob o [value] base_rv lower_bound upper_bound = Ok e /\
    (flt v lo = true \/ fgt v up = true -> eval P rho e = Ok [NegInf]) /\
    (feq v lo = true ->
     eval P rho e =
       Ok [base_logcdf P (op_class_of base_rv_op) base_rv_inputs v]) /\
    (feq v up = true -> feq v lo = false ->
     eval P rho e =
       Ok [log1mexp P
             (base_logcdf P (op_class_of base_rv_op) base_rv_inputs v)]) /\
    (flt lo v = true -> flt v up = true ->
     eval P rho e =
       Ok [base_logprob P (op_class_of base_rv_op) base_rv_inputs v]).
Proof.
  intros Howner Hfloat Hlb Hub Hv Hlo Hup Hle.
  destruct (clip_logprob_eval P rho o value base_rv lower_bound upper_bound
              base_rv_op base_rv_inputs v lo up Howner Hv Hlo Hup)
    as (e & He & Heval).
  exists e. split; [exact He|].
  rewrite Heval, Hlb, Hub, Hle, (float_dtype_not_int _ Hfloat).
  cbn [negb andb].
  unfold clip_pointwise, upper_switch, lower_switch, upper_mass.
  repeat split.
  - intros [Hbelow | Habove].
    + rewrite (flt_not_feq _ _ Hbelow), Hbelow. reflexivity.
    + destruct (above_upper_not_lower v lo up Hle Habove) as [H1 H2].
      rewrite H1, H2, Habove.
      unfold fgt in Habove. rewrite (flt_not_feq_sym _ _ Habove).
      reflexivity.
  - intros Heq. rewrite Heq. reflexivity.
  - intros Heq Hneq.
    rewrite Hneq, (on_upper_not_below_lower v lo up Hle Heq), Heq.
    reflexivity.
  - intros Hlov Hvup.
    rewrite (flt_not_feq_sym _ _ Hlov), (flt_asym _ _ Hlov).
    rewrite (flt_not_feq _ _ Hvup).
    unfold fgt. rewrite (flt_asym _ _ Hvup). reflexivity.
Qed.

(** Witness of C1: the point mass at zero clipped to [[-2, 2]], observed at
    zero. *)
Lemma clip_logprob_two_sided_continuous_witness :
  exists e,
    clip_logprob measurable_clip [value_v] x_rv lower_c upper_c = Ok e /\
    (flt (Fin 0) (Fin (-2)) = true \/ fgt (Fin 0) (Fin 2) = true ->
     eval dirac (env3 (Fin 0) (Fin (-2)) (Fin 2)) e = Ok [NegInf]) /\
    (feq (Fin 0) (Fin (-2)) = true ->
     eval dirac (env3 (Fin 0) (Fin (-2)) (Fin 2)) e =
       Ok [base_logcdf dirac (op_class_of dirac_rv) [] (Fin 0)]) /\
    (feq (Fin 0) (Fin 2) = true -> feq (Fin 0) (Fin (-2)) = false ->
     eval dirac (env3 (Fin 0) (Fin (-2)) (Fin 2)) e =
       Ok [log1mexp dirac
             (base_logcdf dirac (op_class_of dirac_rv) [] (Fin 0))]) /\
    (flt (Fin (-2)) (Fin 0) = true -> flt (Fin 0) (Fin 2) = true ->
     eval dirac (env3 (Fin 0) (Fin (-2)) (Fin 2)) e =
       Ok [base_logprob dirac (op_class_of dirac_rv) [] (Fin 0)]).
Proof.
  apply (clip_logprob_two_sided_continuous dirac
           (env3 (Fin 0) (Fin (-2)) (Fin 2)) measurable_clip value_v x_rv
           lower_c upper_c dirac_rv [] (Fin 0) (Fin (-2)) (Fin 2));
    reflexivity.
Defined.

(** C1, as stated, fails where the two bounds coincide: for
    [at.clip(x, 0, 0)] observed at [0] the value equals the upper bound,
    and the graph yields the base log-CDF at 0, which is 0 for the point
    mass at zero, and not [log1mexp] of it, which is minus infinity. *)
Lemma clip_logprob_equal_bounds_counterexample :
  exists e,
    clip_logprob measurable_clip [value_v] x_rv zero_lower zero_upper = Ok e /\
    startswith (var_dtype x_rv) "float" = true /\
    is_neginf_constant zero_lower = false /\
    is_inf_constant zero_upper = false /\
    feq (Fin 0) (Fin 0) = true /\
    eval dirac (env3 (Fin 0) (Fin 0) (Fin 0)) e = Ok [Fin 0] /\
    log1mexp dirac (base_logcdf dirac (op_class_of dirac_rv) [] (Fin 0))
      = NegInf /\
    eval dirac (env3 (Fin 0) (Fin 0) (Fin 0)) e <>
      Ok [log1mexp dirac
            (base_logcdf dirac (op_class_of dirac_rv) [] (Fin 0))].
Proof.
  eexists. split; [reflexivity|].
  repeat split; try reflexivity.
  vm_compute. discriminate.
Qed.

(** Signed integer dtypes.  For a base variable whose dtype name starts
    with [int] and an upper bound that is not a sentinel, the branch
    selected when the value equals the upper bound is
    [logaddexp (log1mexp logcdf) logprob], the log of [P(X >= upper)]:
    this is what the graph evaluates to when [v == up], whenever the lower
    side does not intercept (the lower bound is the sentinel, or the bounds
    are ordered and [v] is off the lower bound). *)
Theorem clip_logprob_discrete_upper_mass
    P rho o value base_rv lower_bound upper_bound
    base_rv_op base_rv_inputs v lo up :
  var_owner base_rv = Some (base_rv_op, base_rv_inputs) ->
  startswith (var_dtype base_rv) "int" = true ->
  is_inf_constant upper_bound = false ->
  lookup rho value = [v] ->
  lookup rho lower_bound = [lo] ->
  lookup rho upper_bound = [up] ->
  feq v up = true ->
  is_neginf_constant lower_bound = true
  \/ (fle lo up = true /\ feq v lo = false) ->
  exists e,
    clip_logprob o [value] base_rv lower_bound upper_bound = Ok e /\
    eval P rho e =
      Ok [logaddexp P
            (log1mexp P
               (base_logcdf P (op_class_of base_rv_op) base_rv_inputs v))
            (base_logprob P (op_class_of base_rv_op) base_rv_inputs v)].
Proof.
  intros Howner Hint Hub Hv Hlo Hup Heq Hlower.
  destruct (clip_logprob_eval P rho o value base_rv lower_bound upper_bound
              base_rv_op base_rv_inputs v lo up Howner Hv Hlo Hup)
    as (e & He & Heval).
  exists e. split; [exact He|].
  rewrite Heval, Hub, Hint.
  unfold clip_pointwise, upper_switch, lower_switch, upper_mass.
  destruct Hlower as [Hlb | [Hle Hneq]].
  - rewrite Hlb, Heq. reflexivity.
  - rewrite Hle, Hneq, (on_upper_not_below_lower v lo up Hle Heq), Heq.
    destruct (is_neginf_constant lower_bound); reflexivity.
Qed.

(** An [int64] point mass clipped to [[-2, 2]], observed at the upper
    bound. *)
Lemma clip_logprob_discrete_upper_mass_witness :
  exists e,
    clip_logprob measurable_clip [value_v] k_rv lower_c upper_c = Ok e /\
    eval dirac (env3 (Fin 2) (Fin (-2)) (Fin 2)) e =
      Ok [logaddexp dirac
            (log1mexp dirac
               (base_logcdf dirac (op_class_of dirac_rv) [] (Fin 2)))
            (base_logprob dirac (op_class_of dirac_rv) [] (Fin 2))].
Proof.
  apply (clip_logprob_discrete_upper_mass dirac
           (env3 (Fin 2) (Fin (-2)) (Fin 2)) measurable_clip value_v k_rv
           lower_c upper_c dirac_rv [] (Fin 2) (Fin (-2)) (Fin 2));
    try reflexivity.
  right. split; reflexivity.
Defined.

(** A dtype such as [uint8] does not start with [int]: the graph keeps the
    plain [log1mexp] term for it. *)
Lemma uint8_is_not_corrected : startswith "uint8" "int" = false.
Proof. reflexivity. Qed.

(** Every other dtype.  For a base variable whose dtype name does not
    start with [int] (the unsigned integer dtypes and [bool] among them)
    the branch selected when the value equals the upper bound is the plain
    [log1mexp logcdf], the log of [P(X > upper)], with no probability-mass
    term. *)
Lemma clip_logprob_upper_mass_other_dtypes
    P rho o value base_rv lower_bound upper_bound
    base_rv_op base_rv_inputs v lo up :
  var_owner base_rv = Some (base_rv_op, base_rv_inputs) ->
  startswith (var_dtype base_rv) "int" = false ->
  is_inf_constant upper_bound = false ->
  lookup rho value = [v] ->
  lookup rho lower_bound = [lo] ->
  lookup rho upper_bound = [up] ->
  feq v up = true ->
  is_neginf_constant lower_bound = true
  \/ (fle lo up = true /\ feq v lo = false) ->
  exists e,
    clip_logprob o [value] base_rv lower_bound upper_bound = Ok e /\
    eval P rho e =
      Ok [log1mexp P
            (base_logcdf P (op_class_of base_rv_op) base_rv_inputs v)].
Proof.
  intros Howner Hint Hub Hv Hlo Hup Heq Hlower.
  destruct (clip_logprob_eval P rho o value base_rv lower_bound upper_bound
              base_rv_op base_rv_inputs v lo up Howner Hv Hlo Hup)
    as (e & He & Heval).
  exists e. split; [exact He|].
  rewrite Heval, Hub, Hint.
  unfold clip_pointwise, upper_switch, lower_switch, upper_mass.
  destruct Hlower as [Hlb | [Hle Hneq]].
  - rewrite Hlb, Heq. reflexivity.
  - rewrite Hle, Hneq, (on_upper_not_below_lower v lo up Hle Heq), Heq.
    destruct (is_neginf_constant lower_bound); reflexivity.
Qed.

(** C2.  The code misses the claim for the integer dtypes whose name does
    not start with [int].  For [at.clip(x, x, 0)] over a point mass at zero
    of dtype [uint8], observed at the upper bound 0, the graph yields
    [log1mexp] of the base log-CDF, which is minus infinity, where the
    claim asks for [logaddexp (log1mexp logcdf) logprob], which is 0, the
    log of [P(X >= 0) = 1]. *)
Lemma clip_logprob_uint8_upper_mass :
  exists e,
    clip_logprob measurable_clip [value_v] u_rv
      (TensorConstant 1 [NegInf] "float64") zero_upper = Ok e /\
    var_dtype u_rv = "uint8" /\
    is_inf_constant zero_upper = false /\
    feq (Fin 0) (Fin 0) = true /\
    eval dirac (env3 (Fin 0) NegInf (Fin 0)) e =
      Ok [log1mexp dirac
            (base_logcdf dirac (op_class_of dirac_rv) [] (Fin 0))] /\
    eval dirac (env3 (Fin 0) NegInf (Fin 0)) e = Ok [NegInf] /\
    logaddexp dirac
      (log1mexp dirac (base_logcdf dirac (op_class_of dirac_rv) [] (Fin 0)))
      (base_logprob dirac (op_class_of dirac_rv) [] (Fin 0)) = Fin 0 /\
    eval dirac (env3 (Fin 0) NegInf (Fin 0)) e <>
      Ok [logaddexp dirac
            (log1mexp dirac
               (base_logcdf dirac (op_class_of dirac_rv) [] (Fin 0)))
            (base_logprob dirac (op_class_of dirac_rv) [] (Fin 0))].
Proof.
  eexists. split; [reflexivity|].
  repeat split; try reflexivity.
  vm_compute. discriminate.
Qed.



(** C10, as amended.  With both bounds not sentinels, the switch on the
    lower bound is the outermost switch of the graph, directly under the
    bound-order check.  So when that check passes ([lo <= up]) and the value
    equals the lower bound, the graph yields the base log-CDF at the value,
    whether the value is below the upper bound or equal to it; in
    particular for [lo == up == v] the lower-boundary term is returned. *)
Theorem clip_logprob_lower_switch_outermost
    P rho o value base_rv lower_bound upper_bound
    base_rv_op base_rv_inputs v lo up :
  var_owner base_rv = Some (base_rv_op, base_rv_inputs) ->
  is_neginf_constant lower_bound = false ->
  is_inf_constant upper_bound = false ->
  lookup rho value = [v] ->
  lookup rho lower_bound = [lo] ->
  lookup rho upper_bound = [up] ->
  fle lo up = true ->
  feq v lo = true ->
  exists name mass rest e,
    e = CheckParameterValue "lower_bound <= upper_bound"
          (at_switch (at_eq (EVar value) (EVar lower_bound))
             (BaseLogcdf name base_rv_op (EVar value) base_rv_inputs)
             (at_switch (at_lt (EVar value) (EVar lower_bound))
                (ELit NegInf)
                (at_switch (at_eq (EVar value) (EVar upper_bound))
                   mass rest)))
          (at_all (at_le (EVar lower_bound) (EVar upper_bound))) /\
    clip_logprob o [value] base_rv lower_bound upper_bound = Ok e /\
    eval P rho e =
      Ok [base_logcdf P (op_class_of base_rv_op) base_rv_inputs v].
Proof.
  intros Howner Hlb Hub Hv Hlo Hup Hle Heq.
  destruct (clip_logprob_eval P rho o value base_rv lower_bound upper_bound
              base_rv_op base_rv_inputs v lo up Howner Hv Hlo Hup)
    as (e & He & Heval).
  rewrite Hlb, Hub, Hle in Heval. cbn [negb andb] in Heval.
  unfold clip_pointwise, lower_switch in Heval. rewrite Heq in Heval.
  pose proof He as Hshape.
  unfold clip_logprob in Hshape. rewrite Howner, Hlb, Hub in Hshape.
  cbn [negb andb] in Hshape. unfold _logcdf in Hshape.
  destruct (truthy (op_name base_rv_op)); cbn [named] in Hshape;
    injection Hshape as Hshape;
    do 3 eexists; exists e; (split; [symmetry; exact Hshape|]);
    split; assumption.
Qed.

(** Witness of C10: equal bounds [lo == up == v == 0]; the lower-boundary
    term, the base log-CDF at 0, is returned. *)
Lemma clip_logprob_lower_switch_outermost_witness :
  exists name mass rest e,
    e = CheckParameterValue "lower_bound <= upper_bound"
          (at_switch (at_eq (EVar value_v) (EVar zero_lower))
             (BaseLogcdf name dirac_rv (EVar value_v) [])
             (at_switch (at_lt (EVar value_v) (EVar zero_lower))
                (ELit NegInf)
                (at_switch (at_eq (EVar value_v) (EVar zero_upper))
                   mass rest)))
          (at_all (at_le (EVar zero_lower) (EVar zero_upper))) /\
    clip_logprob measurable_clip [value_v] x_rv zero_lower zero_upper = Ok e /\
    eval dirac (env3 (Fin 0) (Fin 0) (Fin 0)) e =
      Ok [base_logcdf dirac (op_class_of dirac_rv) [] (Fin 0)].
Proof.
  apply (clip_logprob_lower_switch_outermost dirac
           (env3 (Fin 0) (Fin 0) (Fin 0)) measurable_clip value_v x_rv
           zero_lower zero_upper dirac_rv [] (Fin 0) (Fin 0) (Fin 0));
    reflexivity.
Defined.

(** C10, as stated, fails when the bounds are out of order: for
    [at.clip(x, 1, 0)] observed at [1] the value equals the lower bound,
    and evaluating the graph raises the parameter-value error instead of
    yielding the base log-CDF at 1. *)
Lemma clip_logprob_lower_equality_counterexample :
  exists e,
    clip_logprob measurable_clip [value_v] x_rv one_lower zero_upper = Ok e /\
    is_neginf_constant one_lower = false /\
    is_inf_constant zero_upper = false /\
    feq (Fin 1) (Fin 1) = true /\
    eval dirac (env3 (Fin 1) (Fin 1) (Fin 0)) e =
      Raise (ParameterValueError "lower_bound <= upper_bound") /\
    eval dirac (env3 (Fin 1) (Fin 1) (Fin 0)) e <>
      Ok [base_logcdf dirac (op_class_of dirac_rv) [] (Fin 1)].
Proof.
  eexists. split; [reflexivity|].
  repeat split; try reflexivity.
  vm_compute. discriminate.
Qed.

(** ** The rounding rule *)

Lemma snap_idempotent s v : snap s (snap s v) = snap s v.
Proof.
  destruct s; cbn [snap];
    auto using fround_idempotent, ffloor_idempotent, fceil_idempotent.
Qed.

Lemma map_combine_map {A B C D} (f : B -> C -> D) (g : A -> B) (h : A -> C) l :
  map (fun p => f (fst p) (snd p)) (combine (map g l) (map h l))
  = map (fun x => f (g x) (h x)) l.
Proof.
  induction l as [|x l IH]; cbn; [reflexivity|]. now rewrite IH.
Qed.

Lemma broadcast2_map_map {A B C D} (f : B -> C -> D) (g : A -> B) (h : A -> C) l :
  broadcast2 f (map g l) (map h l) = Ok (map (fun x => f (g x) (h x)) l).
Proof.
  destruct l as [|x [|y l]]; try reflexivity.
  change (broadcast2 f (map g (x :: y :: l)) (map h (x :: y :: l)))
    with (if Nat.eqb (List.length (map g (x :: y :: l)))
                     (List.length (map h (x :: y :: l)))
          then Ok (map (fun p => f (fst p) (snd p))
                     (combine (map g (x :: y :: l)) (map h (x :: y :: l))))
          else Raise ShapeError).
  rewrite !length_map, Nat.eqb_refl, map_combine_map. reflexivity.
Qed.

(** The graph of [round_logprob]: a [logdiffexp] of two base log-CDF terms,
    which evaluates entry by entry to the log-difference at the bracketing
    points of the snapped value. *)
Lemma round_logprob_eval o s value base_rv base_rv_op base_rv_inputs :
  scalar_op_of o = Some s ->
  valid_round_scalar_type (Some s) = true ->
  var_owner base_rv = Some (base_rv_op, base_rv_inputs) ->
  exists name_upper name_lower value_upper value_lower,
    round_logprob o [value] base_rv =
      Ok (logdiffexp_of
            (BaseLogcdf name_upper base_rv_op value_upper base_rv_inputs)
            (BaseLogcdf name_lower base_rv_op value_lower base_rv_inputs)) /\
    forall P rho,
      eval P rho
        (logdiffexp_of
           (BaseLogcdf name_upper base_rv_op value_upper base_rv_inputs)
           (BaseLogcdf name_lower base_rv_op value_lower base_rv_inputs))
      = Ok (map (fun x =>
                   logdiffexp P
                     (base_logcdf P (op_class_of base_rv_op) base_rv_inputs
                        (snd (bracket s (snap s x))))
                     (base_logcdf P (op_class_of base_rv_op) base_rv_inputs
                        (fst (bracket s (snap s x)))))
              (lookup rho value)).
Proof.
  intros Hs Hvalid Howner.
  unfold round_logprob. rewrite Hs, Howner. unfold _logcdf.
  destruct s; try discriminate Hvalid;
    destruct (truthy (op_name base_rv_op)); cbn [bind named];
    do 4 eexists; (split; [reflexivity|]); intros P rho;
    cbn [eval bind]; rewrite ?broadcast2_scalar_r; cbn [bind];
    rewrite !map_map;
    rewrite (broadcast2_map_map (logdiffexp P)); reflexivity.
Qed.

(** C5.  At an observed value [v] on the rounding grid of the kind
    ([snap s v = v]) the graph of [round_logprob] is the [logdiffexp]
    primitive applied to two base log-CDF terms, and it evaluates to
    [logdiffexp (logcdf value_upper) (logcdf value_lower)] with
    [(value_lower, value_upper)] equal to [(v - 0.5, v + 0.5)] for
    round-to-even, [(v, v + 1.0)] for floor and [(v - 1.0, v)] for ceil. *)
Theorem round_logprob_on_grid
    P rho o s value base_rv base_rv_op base_rv_inputs v :
  scalar_op_of o = Some s ->
  valid_round_scalar_type (Some s) = true ->
  var_owner base_rv = Some (base_rv_op, base_rv_inputs) ->
  lookup rho value = [v] ->
  snap s v = v ->
  exists name_upper name_lower value_upper value_lower e,
    e = logdiffexp_of
          (BaseLogcdf name_upper base_rv_op value_upper base_rv_inputs)
          (BaseLogcdf name_lower base_rv_op value_lower base_rv_inputs) /\
    round_logprob o [value] base_rv = Ok e /\
    eval P rho e =
      Ok [logdiffexp P
            (base_logcdf P (op_class_of base_rv_op) base_rv_inputs
               match s with
               | RoundHalfToEven => fadd v half
               | Floor => fadd v one
               | _ => v
               end)
            (base_logcdf P (op_class_of base_rv_op) base_rv_inputs
               match s with
               | RoundHalfToEven => fsub v half
               | Ceil => fsub v one
               | _ => v
               end)].
Proof.
  intros Hs Hvalid Howner Hv Hgrid.
  destruct (round_logprob_eval o s value base_rv base_rv_op base_rv_inputs
              Hs Hvalid Howner) as (nu & nl & vu & vl & He & Heval).
  exists nu, nl, vu, vl. eexists. split; [reflexivity|]. split; [exact He|].
  rewrite Heval, Hv. cbn [map]. rewrite Hgrid.
  destruct s; try discriminate Hvalid; reflexivity.
Qed.

(** Witness of C5: the floor of the point mass at zero, observed at 3. *)
Lemma round_logprob_on_grid_witness :
  exists name_upper name_lower value_upper value_lower e,
    e = logdiffexp_of
          (BaseLogcdf name_upper dirac_rv value_upper [])
          (BaseLogcdf name_lower dirac_rv value_lower []) /\
    round_logprob (measurable_round Floor) [value_v] x_rv = Ok e /\
    eval dirac (env3 (Fin 3) (Fin 0) (Fin 0)) e =
      Ok [logdiffexp dirac
            (base_logcdf dirac (op_class_of dirac_rv) [] (fadd (Fin 3) one))
            (base_logcdf dirac (op_class_of dirac_rv) [] (Fin 3))].
Proof.
  apply (round_logprob_on_grid dirac (env3 (Fin 3) (Fin 0) (Fin 0))
           (measurable_round Floor) Floor value_v x_rv dirac_rv [] (Fin 3));
    reflexivity.
Defined.

(** C9.  [round_logprob] snaps the observed value with the rounding
    function of its kind before it brackets it: evaluating its graph at a
    value and at the snapped value gives the same result, which is the
    log-difference at the bracketing points of the snapped value, for a
    value off the grid as well (no error, no forced minus infinity). *)
Theorem round_logprob_snaps_value
    P rho rho' o s value base_rv base_rv_op base_rv_inputs :
  scalar_op_of o = Some s ->
  valid_round_scalar_type (Some s) = true ->
  var_owner base_rv = Some (base_rv_op, base_rv_inputs) ->
  lookup rho' value = map (snap s) (lookup rho value) ->
  exists e,
    round_logprob o [value] base_rv = Ok e /\
    eval P rho e = eval P rho' e /\
    eval P rho e =
      Ok (map (fun x =>
                 logdiffexp P
                   (base_logcdf P (op_class_of base_rv_op) base_rv_inputs
                      (snd (bracket s (snap s x))))
                   (base_logcdf P (op_class_of base_rv_op) base_rv_inputs
                      (fst (bracket s (snap s x)))))
            (lookup rho value)).
Proof.
  intros Hs Hvalid Howner Hsnap.
  destruct (round_logprob_eval o s value base_rv base_rv_op base_rv_inputs
              Hs Hvalid Howner) as (nu & nl & vu & vl & He & Heval).
  eexists. split; [exact He|].
  rewrite !Heval, Hsnap, map_map. split; [|reflexivity].
  f_equal. apply map_ext. intros x. now rewrite snap_idempotent.
Qed.

(** Witness of C9: rounding to even, observed off the grid at 5/2, which
    snaps to 2. *)
Lemma round_logprob_snaps_value_witness :
  exists e,
    round_logprob (measurable_round RoundHalfToEven) [value_v] x_rv = Ok e /\
    eval dirac (env3 (Fin (5 # 2)) (Fin 0) (Fin 0)) e
    = eval dirac (env3 (Fin 2) (Fin 0) (Fin 0)) e /\
    eval dirac (env3 (Fin (5 # 2)) (Fin 0) (Fin 0)) e =
      Ok (map (fun x =>
                 logdiffexp dirac
                   (base_logcdf dirac (op_class_of dirac_rv) []
                      (snd (bracket RoundHalfToEven (snap RoundHalfToEven x))))
                   (base_logcdf dirac (op_class_of dirac_rv) []
                      (fst (bracket RoundHalfToEven (snap RoundHalfToEven x)))))
            (lookup (env3 (Fin (5 # 2)) (Fin 0) (Fin 0)) value_v)).
Proof.
  apply (round_logprob_snaps_value dirac
           (env3 (Fin (5 # 2)) (Fin 0) (Fin 0)) (env3 (Fin 2) (Fin 0) (Fin 0))
           (measurable_round RoundHalfToEven) RoundHalfToEven value_v x_rv
           dirac_rv []);
    reflexivity.
Defined.

(** ** The rewriters *)

Lemma eligible_base_inv base m :
  eligible_base base m = true ->
  exists o inputs,
    var_owner base = Some (o, inputs) /\
    isinstance_MeasurableVariable o = true /\
    in_rv_values base m = false.
Proof.
  unfold eligible_base. destruct (var_owner base) as [[o inputs]|];
    [|discriminate].
  intros H. apply andb_true_iff in H as [H1 H2].
  apply negb_true_iff in H2. now exists o, inputs.
Qed.

(** C8.  [find_measurable_roundings] proposes a rewrite only for a base
    input that is produced by a measurable node, carries no observed value
    and has a float dtype; a rounding of a base variable of integer dtype
    (signed or unsigned) is rejected: the matcher returns [None]. *)
Theorem find_measurable_roundings_eligibility fgraph node next :
  (forall r next',
     find_measurable_roundings fgraph node next = (Ok (Some r), next') ->
     exists m base o inputs,
       preserve_rv_mappings fgraph = Some m /\
       node_inputs node = [base] /\
       var_owner base = Some (o, inputs) /\
       isinstance_MeasurableVariable o = true /\
       in_rv_values base m = false /\
       startswith (var_dtype base) "float" = true) /\
  (forall base rounded_var,
     node_inputs node = [base] ->
     node_outputs node = [rounded_var] ->
     startswith (var_dtype base) "int" = true
     \/ startswith (var_dtype base) "uint" = true ->
     find_measurable_roundings fgraph node next = (Ok None, next)).
Proof.
  unfold find_measurable_roundings. split.
  - intros r next'.
    destruct (preserve_rv_mappings fgraph) as [m|]; [|discriminate].
    destruct (isinstance_MeasurableRound (node_op node)); [discriminate|].
    destruct (negb _); [discriminate|].
    destruct (node_outputs node) as [|rounded_var [|? ?]]; try discriminate.
    destruct (node_inputs node) as [|base [|? ?]]; try discriminate.
    destruct (scalar_op_of (node_op node)) as [s|]; [|discriminate].
    destruct (eligible_base base m) eqn:Hel; [|discriminate].
    destruct (startswith (var_dtype base) "float") eqn:Hfloat;
      [|discriminate].
    intros _.
    destruct (eligible_base_inv base m Hel) as (o & inputs & H1 & H2 & H3).
    now exists m, base, o, inputs.
  - intros base rounded_var Hin Hout Hint.
    assert (Hfloat : startswith (var_dtype base) "float" = false)
      by (destruct Hint; auto using int_dtype_not_float, uint_dtype_not_float).
    destruct (preserve_rv_mappings fgraph) as [m|]; [|reflexivity].
    destruct (isinstance_MeasurableRound (node_op node)); [reflexivity|].
    destruct (negb _) eqn:Hop; [reflexivity|].
    rewrite Hin, Hout, Hfloat, andb_false_r.
    destruct (scalar_op_of (node_op node)) as [s|]; [reflexivity|].
    apply negb_false_iff, andb_true_iff in Hop as [_ Hop].
    discriminate Hop.
Qed.

(** Witness of C8: the floor of an integer-valued variable is rejected. *)
Lemma find_measurable_roundings_eligibility_witness :
  find_measurable_roundings (mk_fgraph (Some (mk_rv_map [])))
    (mk_node (elemwise Floor) [k_rv]
       [TensorVariable 4 (Some (elemwise Floor, [k_rv])) "int64" (Some "kr")])
    10
  = (Ok None, 10%nat).
Proof.
  apply (proj2 (find_measurable_roundings_eligibility
                  (mk_fgraph (Some (mk_rv_map [])))
                  (mk_node (elemwise Floor) [k_rv]
                     [TensorVariable 4 (Some (elemwise Floor, [k_rv]))
                        "int64" (Some "kr")])
                  10) k_rv
           (TensorVariable 4 (Some (elemwise Floor, [k_rv])) "int64" (Some "kr"))).
  - reflexivity.
  - reflexivity.
  - left. reflexivity.
Defined.

Lemma find_measurable_clips_inv fgraph node next r next' :
  find_measurable_clips fgraph node next = (Ok (Some r), next') ->
  exists m base lower_bound upper_bound o inputs,
    preserve_rv_mappings fgraph = Some m /\
    node_inputs node = [base; lower_bound; upper_bound] /\
    var_owner base = Some (o, inputs) /\
    isinstance_MeasurableVariable o = true /\
    in_rv_values base m = false.
Proof.
  unfold find_measurable_clips.
  destruct (preserve_rv_mappings fgraph) as [m|]; [|discriminate].
  destruct (isinstance_MeasurableClip (node_op node)); [discriminate|].
  destruct (negb _); [discriminate|].
  destruct (node_outputs node) as [|clipped_var rest]; [discriminate|].
  destruct (node_inputs node) as [|base [|lb [|ub [|? ?]]]];
    try discriminate.
  destruct (eligible_base base m) eqn:Hel; [|discriminate].
  intros _.
  destruct (eligible_base_inv base m Hel) as (o & inputs & H1 & H2 & H3).
  now exists m, base, lb, ub, o, inputs.
Qed.

Lemma find_measurable_clips_ineligible
    fgraph node next m base lower_bound upper_bound clipped_var rest :
  preserve_rv_mappings fgraph = Some m ->
  node_inputs node = [base; lower_bound; upper_bound] ->
  node_outputs node = clipped_var :: rest ->
  eligible_base base m = false ->
  find_measurable_clips fgraph node next = (Ok None, next).
Proof.
  intros Hm Hin Hout Hel.
  unfold find_measurable_clips. rewrite Hm, Hin, Hout, Hel.
  destruct (isinstance_MeasurableClip (node_op node)); [reflexivity|].
  destruct (negb _); reflexivity.
Qed.

Lemma find_measurable_clips_other_op fgraph node next :
  is_Clip (scalar_op_of (node_op node)) = false ->
  find_measurable_clips fgraph node next = (Ok None, next).
Proof.
  intros H. unfold find_measurable_clips. rewrite H, andb_false_r.
  destruct (preserve_rv_mappings fgraph); [|reflexivity].
  destruct (isinstance_MeasurableClip (node_op node)); reflexivity.
Qed.

Lemma find_measurable_roundings_other_op fgraph node next :
  valid_round_scalar_type (scalar_op_of (node_op node)) = false ->
  find_measurable_roundings fgraph node next = (Ok None, next).
Proof.
  intros H. unfold find_measurable_roundings. rewrite H, andb_false_r.
  destruct (preserve_rv_mappings fgraph); [|reflexivity].
  destruct (isinstance_MeasurableRound (node_op node)); reflexivity.
Qed.

Lemma in_rv_values_here rv value rest :
  in_rv_values rv (mk_rv_map (rest ++ [(rv, value)])) = true.
Proof.
  unfold in_rv_values. cbn [rv_values]. rewrite existsb_app.
  cbn [existsb fst]. unfold var_is. rewrite Nat.eqb_refl.
  now rewrite orb_true_r.
Qed.

Lemma strip_claimed_nil v : strip_claimed [] v = v.
Proof. destruct v as [id [[o inputs]|] dtype name | ? ? ?]; reflexivity. Qed.

Lemma map_strip_claimed_nil l : map (strip_claimed []) l = l.
Proof.
  induction l as [|v l IH]; cbn [map]; [reflexivity|].
  now rewrite strip_claimed_nil, IH.
Qed.

(** C7.  [find_measurable_clips] proposes a rewrite only for a base input
    that is produced by a measurable node and carries no observed value;
    for a clip node whose base fails one of the two it returns [None] and
    raises nothing.  A clip whose base random variable is itself observed
    is therefore left as a plain elementwise node, and the driver reports
    the clipped node, under its name, as one whose log-probability term
    could not be derived. *)
Theorem find_measurable_clips_eligibility fgraph node next :
  (forall r next',
     find_measurable_clips fgraph node next = (Ok (Some r), next') ->
     exists m base lower_bound upper_bound o inputs,
       preserve_rv_mappings fgraph = Some m /\
       node_inputs node = [base; lower_bound; upper_bound] /\
       var_owner base = Some (o, inputs) /\
       isinstance_MeasurableVariable o = true /\
       in_rv_values base m = false) /\
  (forall m base lower_bound upper_bound clipped_var rest,
     preserve_rv_mappings fgraph = Some m ->
     node_inputs node = [base; lower_bound; upper_bound] ->
     node_outputs node = clipped_var :: rest ->
     (forall o inputs,
        var_owner base = Some (o, inputs) ->
        isinstance_MeasurableVariable o = false)
     \/ in_rv_values base m = true ->
     find_measurable_clips fgraph node next = (Ok None, next)) /\
  (forall clip_op base_id dist base_name base_repr base_inputs base_dtype
          base_label lower_bound upper_bound cens_id cens_dtype cens_name
          cens_value base_value,
     let base_var :=
       TensorVariable base_id
         (Some (mk_op (RandomVariable dist) base_name base_repr false,
                base_inputs))
         base_dtype base_label in
     let cens_var :=
       TensorVariable cens_id
         (Some (clip_op, [base_var; lower_bound; upper_bound]))
         cens_dtype (Some cens_name) in
     op_class_of clip_op = Elemwise Clip ->
     exists msg,
       factorized_joint_logprob
         [(cens_var, cens_value); (base_var, base_value)] next
       = Raise (RuntimeError msg [cens_name])).
Proof.
  split; [|split].
  - intros r next'. apply find_measurable_clips_inv.
  - intros m base lb ub clipped_var rest Hm Hin Hout Hfail.
    apply (find_measurable_clips_ineligible fgraph node next m base lb ub
             clipped_var rest Hm Hin Hout).
    unfold eligible_base.
    destruct (var_owner base) as [[o inputs]|] eqn:Howner; [|reflexivity].
    destruct Hfail as [Hfail | Hfail].
    + now rewrite (Hfail o inputs eq_refl).
    + rewrite Hfail. apply andb_false_r.
  - intros clip_op base_id dist base_name base_repr base_inputs base_dtype
      base_label lower_bound upper_bound cens_id cens_dtype cens_name
      cens_value base_value base_var cens_var Hclip.
    eexists.
    unfold factorized_joint_logprob.
    set (fg := mk_fgraph _).
    assert (Hcens : rewrite_var fg [] cens_var next
                    = (Ok (cens_var, []), next)).
    { unfold rewrite_var, cens_var. cbn [var_owner].
      rewrite map_strip_claimed_nil.
      rewrite (find_measurable_clips_ineligible fg _ next
                 (mk_rv_map [(cens_var, cens_value); (base_var, base_value)])
                 base_var lower_bound upper_bound cens_var []);
        try reflexivity.
      - rewrite find_measurable_roundings_other_op; [reflexivity|].
        cbn [node_op]. unfold scalar_op_of. now rewrite Hclip.
      - assert (Hin : in_rv_values base_var
                        (mk_rv_map [(cens_var, cens_value);
                                    (base_var, base_value)]) = true)
          by apply (in_rv_values_here base_var base_value
                      [(cens_var, cens_value)]).
        unfold eligible_base. rewrite Hin.
        destruct (var_owner base_var) as [[? ?]|]; [|reflexivity].
        apply andb_false_r. }
    assert (Hbase : rewrite_var fg [] base_var next
                    = (Ok (base_var, []), next)).
    { unfold rewrite_var, base_var. cbn [var_owner].
      rewrite find_measurable_clips_other_op by reflexivity.
      rewrite find_measurable_roundings_other_op by reflexivity.
      reflexivity. }
    cbn [derive_terms]. rewrite Hcens. cbn [bind].
    rewrite Hbase. cbn [bind].
    unfold cens_var at 1, base_var at 1. cbn [var_owner].
    unfold isinstance_MeasurableVariable at 1.
    cbn [op_class_of unmeasurable negb logprob_rule bind].
    unfold isinstance_MeasurableVariable. rewrite Hclip.
    reflexivity.
Qed.

(** Witness of C7: [x] is observed and feeds [clip(x, x, upper)], named
    [cens_x]; the driver reports [cens_x], whatever the value variables
    are called. *)
Lemma find_measurable_clips_eligibility_witness :
  exists msg,
    factorized_joint_logprob
      [(TensorVariable 4 (Some (elemwise Clip, [x_rv; x_rv; upper_c]))
          "float64" (Some "cens_x"),
        TensorVariable 7 None "float64" (Some "obs"));
       (x_rv, TensorVariable 8 None "float64" (Some "x_obs"))] 10
    = Raise (RuntimeError msg ["cens_x"]).
Proof.
  apply (proj2 (proj2 (find_measurable_clips_eligibility
                         (mk_fgraph None) (mk_node (elemwise Clip) [] []) 10))
           (elemwise Clip) 0%nat "dirac" "dirac" "dirac_rv" [] "float64"
           (Some "x") x_rv upper_c 4%nat "float64" "cens_x"
           (TensorVariable 7 None "float64" (Some "obs"))
           (TensorVariable 8 None "float64" (Some "x_obs")));
    reflexivity.
Defined.

(** What [find_measurable_clips] builds on a match: a [MeasurableClip]
    node over the copy of the base variable that has lost the measurable
    capability, with each bound kept, or replaced by its infinity sentinel
    when it is the base variable itself. *)
Lemma find_measurable_clips_match
    fgraph m node next base lower_bound upper_bound clipped_var rest
    base_op base_inputs :
  preserve_rv_mappings fgraph = Some m ->
  op_class_of (node_op node) = Elemwise Clip ->
  node_inputs node = [base; lower_bound; upper_bound] ->
  node_outputs node = clipped_var :: rest ->
  var_owner base = Some (base_op, base_inputs) ->
  eligible_base base m = true ->
  exists base' lower' upper' id next',
    find_measurable_clips fgraph node next =
      (Ok (Some [TensorVariable id
                   (Some (measurable_clip, [base'; lower'; upper']))
                   (var_dtype clipped_var) (var_name clipped_var)]),
       next') /\
    var_owner base' =
      Some (mk_op (op_class_of base_op) (op_name base_op) (op_repr base_op)
              true, base_inputs) /\
    var_dtype base' = var_dtype base /\
    lower' = (if var_is lower_bound base
              then TensorConstant next [NegInf] "float64"
              else lower_bound) /\
    upper' = (if var_is upper_bound base
              then TensorConstant
                     (if var_is lower_bound base then S next else next)
                     [PosInf] "float64"
              else upper_bound).
Proof.
  intros Hm Hclass Hin Hout Howner Hel.
  unfold find_measurable_clips.
  rewrite Hm, Hin, Hout, Hel.
  unfold isinstance_MeasurableClip, isinstance_Elemwise, scalar_op_of.
  rewrite Hclass. cbn [is_Clip andb negb].
  destruct base as [bid bowner bdtype bname | ? ? ?]; [|discriminate Howner].
  cbn [var_owner] in Howner. subst bowner.
  set (base := TensorVariable bid (Some (base_op, base_inputs)) bdtype bname).
  destruct (var_is lower_bound base), (var_is upper_bound base);
    cbn [negb at_constant assign_custom_measurable_outputs make_node_output
         set_name base];
    do 5 eexists; (split; [reflexivity|]);
    repeat split; reflexivity.
Qed.

(** Two clips of one base variable, both observed: the first rewrite
    claims the base, the second clip then fails the eligibility test and
    stays a plain elementwise node, and the driver reports the second
    clipped node, under its name. *)
Lemma shared_base_conflict
    clip_op1 clip_op2 base_id dist base_name base_repr base_inputs
    base_dtype base_label lower1 upper1 lower2 upper2
    id1 id2 dtype1 dtype2 name1 name2 value1 value2 next :
  let base_var :=
    TensorVariable base_id
      (Some (mk_op (RandomVariable dist) base_name base_repr false,
             base_inputs))
      base_dtype base_label in
  let cens1 :=
    TensorVariable id1 (Some (clip_op1, [base_var; lower1; upper1]))
      dtype1 (Some name1) in
  let cens2 :=
    TensorVariable id2 (Some (clip_op2, [base_var; lower2; upper2]))
      dtype2 (Some name2) in
  op_class_of clip_op1 = Elemwise Clip ->
  op_class_of clip_op2 = Elemwise Clip ->
  id1 <> base_id ->
  id2 <> base_id ->
  exists msg,
    factorized_joint_logprob [(cens1, value1); (cens2, value2)] next
    = Raise (RuntimeError msg [name2]).
Proof.
  intros base_var cens1 cens2 Hclip1 Hclip2 Hid1 Hid2.
  eexists. unfold factorized_joint_logprob.
  set (m := mk_rv_map [(cens1, value1); (cens2, value2)]).
  set (fg := mk_fgraph (Some m)).
  assert (Hel : eligible_base base_var m = true).
  { unfold eligible_base, in_rv_values, var_is. cbn.
    apply Nat.eqb_neq in Hid1, Hid2. now rewrite Hid1, Hid2. }
  destruct (find_measurable_clips_match fg m
              (mk_node clip_op1 [base_var; lower1; upper1] [cens1]) next
              base_var lower1 upper1 cens1 [] _ base_inputs
              eq_refl Hclip1 eq_refl eq_refl eq_refl Hel)
    as (base' & lower' & upper' & id & next' & Hfind & Howner' & _).
  assert (Hfirst : rewrite_var fg [] cens1 next
                   = (Ok (TensorVariable id
                            (Some (measurable_clip, [base'; lower'; upper']))
                            (var_dtype cens1) (var_name cens1),
                          [base_id]), next')).
  { unfold rewrite_var, cens1 at 1. cbn [var_owner].
    rewrite map_strip_claimed_nil. fold cens1. rewrite Hfind. reflexivity. }
  assert (Hsecond : rewrite_var fg [base_id] cens2 next'
                    = (Ok (cens2, [base_id]), next')).
  { unfold rewrite_var, cens2 at 1. cbn [var_owner map]. fold cens2.
    rewrite (find_measurable_clips_ineligible fg _ next' m
               (strip_claimed [base_id] base_var)
               (strip_claimed [base_id] lower2)
               (strip_claimed [base_id] upper2) cens2 []);
      try reflexivity.
    - rewrite find_measurable_roundings_other_op; [reflexivity|].
      cbn [node_op]. unfold scalar_op_of. now rewrite Hclip2.
    - unfold base_var, strip_claimed. cbn [existsb].
      rewrite Nat.eqb_refl. reflexivity. }
  cbn [derive_terms]. rewrite Hfirst. cbn [bind].
  rewrite Hsecond. cbn [bind var_owner].
  unfold cens2 at 1. cbn [var_owner].
  unfold isinstance_MeasurableVariable at 1. rewrite Hclip2.
  cbn [bind]. unfold isinstance_MeasurableVariable.
  cbn [measurable_clip op_class_of unmeasurable negb logprob_rule].
  unfold clip_logprob. rewrite Howner'. cbn [bind].
  reflexivity.
Qed.

Lemma var_is_refl v : var_is v v = true.
Proof. apply Nat.eqb_refl. Qed.

(** C3.  For a matched clip node whose lower-bound input is the base
    variable itself, [find_measurable_clips] puts the constant minus
    infinity in its place, and [clip_logprob] then builds the two nested
    switches of the upper bound only, with no check: the graph yields the
    boundary mass where the value equals the bound, minus infinity where it
    exceeds it and the base log-probability elsewhere.  Symmetrically, an
    upper-bound input that is the base variable becomes the constant plus
    infinity and only the switches of the lower bound are built. *)
Theorem one_sided_clip
    fgraph m node next base bound clipped_var rest base_op base_inputs value :
  preserve_rv_mappings fgraph = Some m ->
  op_class_of (node_op node) = Elemwise Clip ->
  node_outputs node = clipped_var :: rest ->
  var_owner base = Some (base_op, base_inputs) ->
  eligible_base base m = true ->
  var_is bound base = false ->
  (node_inputs node = [base; base; bound] ->
   is_inf_constant bound = false ->
   exists base' sentinel id next' mass name o' e,
     find_measurable_clips fgraph node next =
       (Ok (Some [TensorVariable id
                    (Some (measurable_clip, [base'; sentinel; bound]))
                    (var_dtype clipped_var) (var_name clipped_var)]),
        next') /\
     sentinel = TensorConstant next [NegInf] "float64" /\
     e = at_switch (at_eq (EVar value) (EVar bound)) mass
           (at_switch (at_gt (EVar value) (EVar bound)) (ELit NegInf)
              (BaseLogprob name o' (EVar value) base_inputs)) /\
     clip_logprob measurable_clip [value] base' sentinel bound = Ok e /\
     contains_check e = false /\
     forall P rho v b,
       lookup rho value = [v] ->
       lookup rho bound = [b] ->
       eval P rho e =
         Ok [if feq v b then
               if startswith (var_dtype base) "int"
               then logaddexp P
                      (log1mexp P
                         (base_logcdf P (op_class_of base_op) base_inputs v))
                      (base_logprob P (op_class_of base_op) base_inputs v)
               else log1mexp P
                      (base_logcdf P (op_class_of base_op) base_inputs v)
             else if fgt v b then NegInf
             else base_logprob P (op_class_of base_op) base_inputs v]) /\
  (node_inputs node = [base; bound; base] ->
   is_neginf_constant bound = false ->
   exists base' sentinel id next' name_cdf name_prob o' e,
     find_measurable_clips fgraph node next =
       (Ok (Some [TensorVariable id
                    (Some (measurable_clip, [base'; bound; sentinel]))
                    (var_dtype clipped_var) (var_name clipped_var)]),
        next') /\
     sentinel = TensorConstant next [PosInf] "float64" /\
     e = at_switch (at_eq (EVar value) (EVar bound))
           (BaseLogcdf name_cdf o' (EVar value) base_inputs)
           (at_switch (at_lt (EVar value) (EVar bound)) (ELit NegInf)
              (BaseLogprob name_prob o' (EVar value) base_inputs)) /\
     clip_logprob measurable_clip [value] base' bound sentinel = Ok e /\
     contains_check e = false /\
     forall P rho v b,
       lookup rho value = [v] ->
       lookup rho bound = [b] ->
       eval P rho e =
         Ok [if feq v b
             then base_logcdf P (op_class_of base_op) base_inputs v
             else if flt v b then NegInf
             else base_logprob P (op_class_of base_op) base_inputs v]).
Proof.
  intros Hm Hclass Hout Howner Hel Hbound. split.
  - intros Hin Hfinite.
    destruct (find_measurable_clips_match fgraph m node next base base bound
                clipped_var rest base_op base_inputs Hm Hclass Hin Hout
                Howner Hel)
      as (base' & lower' & upper' & id & next' & Hfind & Howner' & Hdtype
          & Hlower & Hupper).
    rewrite var_is_refl in Hlower. rewrite Hbound in Hupper.
    subst lower' upper'.
    assert (Hshape :
      exists mass name o' e,
        e = at_switch (at_eq (EVar value) (EVar bound)) mass
              (at_switch (at_gt (EVar value) (EVar bound)) (ELit NegInf)
                 (BaseLogprob name o' (EVar value) base_inputs)) /\
        clip_logprob measurable_clip [value] base'
          (TensorConstant next [NegInf] "float64") bound = Ok e /\
        contains_check e = false).
    { unfold clip_logprob. rewrite Howner', Hfinite.
      cbn [is_neginf_constant forallb isneginf andb negb op_name op_repr].
      unfold _logprob, _logcdf.
      destruct (truthy (op_name base_op)),
               (startswith (var_dtype base') "int");
        cbn [named]; do 4 eexists;
        (split; [reflexivity|]); split; reflexivity. }
    destruct Hshape as (mass & name & o' & e & Hshape & He & Hcheck).
    exists base', (TensorConstant next [NegInf] "float64"), id, next',
      mass, name, o', e.
    repeat (split; [assumption || reflexivity|]).
    intros P rho v b Hv Hb.
    destruct (clip_logprob_eval P rho measurable_clip value base'
                (TensorConstant next [NegInf] "float64") bound _ _
                v NegInf b Howner' Hv eq_refl Hb) as (e' & He' & Heval).
    rewrite He in He'. injection He' as <-.
    rewrite Heval, Hfinite, Hdtype. reflexivity.
  - intros Hin Hfinite.
    destruct (find_measurable_clips_match fgraph m node next base bound base
                clipped_var rest base_op base_inputs Hm Hclass Hin Hout
                Howner Hel)
      as (base' & lower' & upper' & id & next' & Hfind & Howner' & Hdtype
          & Hlower & Hupper).
    rewrite Hbound in Hlower, Hupper. rewrite var_is_refl in Hupper.
    subst lower' upper'.
    assert (Hshape :
      exists name_cdf name_prob o' e,
        e = at_switch (at_eq (EVar value) (EVar bound))
              (BaseLogcdf name_cdf o' (EVar value) base_inputs)
              (at_switch (at_lt (EVar value) (EVar bound)) (ELit NegInf)
                 (BaseLogprob name_prob o' (EVar value) base_inputs)) /\
        clip_logprob measurable_clip [value] base' bound
          (TensorConstant next [PosInf] "float64") = Ok e /\
        contains_check e = false).
    { unfold clip_logprob. rewrite Howner', Hfinite.
      cbn [is_inf_constant forallb isinf andb negb op_name op_repr].
      unfold _logprob, _logcdf.
      destruct (truthy (op_name base_op));
        cbn [named]; do 4 eexists;
        (split; [reflexivity|]); split; reflexivity. }
    destruct Hshape as (nc & np & o' & e & Hshape & He & Hcheck).
    exists base', (TensorConstant next [PosInf] "float64"), id, next',
      nc, np, o', e.
    repeat (split; [assumption || reflexivity|]).
    intros P rho v b Hv Hb.
    destruct (clip_logprob_eval P rho measurable_clip value base' bound
                (TensorConstant next [PosInf] "float64") _ _
                v b PosInf Howner' Hv Hb eq_refl) as (e' & He' & Heval).
    rewrite He in He'. injection He' as <-.
    rewrite Heval, Hfinite. reflexivity.
Qed.

(** Witness of C3: [clip(x, x, upper)] and [clip(x, lower, x)] over the
    point mass at zero, in a graph with no observed value yet. *)
Lemma one_sided_clip_witness :
  (exists base' sentinel id next' mass name o' e,
     find_measurable_clips (mk_fgraph (Some (mk_rv_map [])))
       (clip_node x_rv x_rv upper_c "cens_x") 10 =
       (Ok (Some [TensorVariable id
                    (Some (measurable_clip, [base'; sentinel; upper_c]))
                    "float64" (Some "cens_x")]),
        next') /\
     sentinel = TensorConstant 10 [NegInf] "float64" /\
     e = at_switch (at_eq (EVar value_v) (EVar upper_c)) mass
           (at_switch (at_gt (EVar value_v) (EVar upper_c)) (ELit NegInf)
              (BaseLogprob name o' (EVar value_v) [])) /\
     clip_logprob measurable_clip [value_v] base' sentinel upper_c = Ok e /\
     contains_check e = false /\
     forall P rho v b,
       lookup rho value_v = [v] ->
       lookup rho upper_c = [b] ->
       eval P rho e =
         Ok [if feq v b then
               if startswith (var_dtype x_rv) "int"
               then logaddexp P
                      (log1mexp P
                         (base_logcdf P (op_class_of dirac_rv) [] v))
                      (base_logprob P (op_class_of dirac_rv) [] v)
               else log1mexp P (base_logcdf P (op_class_of dirac_rv) [] v)
             else if fgt v b then NegInf
             else base_logprob P (op_class_of dirac_rv) [] v]) /\
  (exists base' sentinel id next' name_cdf name_prob o' e,
     find_measurable_clips (mk_fgraph (Some (mk_rv_map [])))
       (clip_node x_rv lower_c x_rv "cens_x") 10 =
       (Ok (Some [TensorVariable id
                    (Some (measurable_clip, [base'; lower_c; sentinel]))
                    "float64" (Some "cens_x")]),
        next') /\
     sentinel = TensorConstant 10 [PosInf] "float64" /\
     e = at_switch (at_eq (EVar value_v) (EVar lower_c))
           (BaseLogcdf name_cdf o' (EVar value_v) [])
           (at_switch (at_lt (EVar value_v) (EVar lower_c)) (ELit NegInf)
              (BaseLogprob name_prob o' (EVar value_v) [])) /\
     clip_logprob measurable_clip [value_v] base' lower_c sentinel = Ok e /\
     contains_check e = false /\
     forall P rho v b,
       lookup rho value_v = [v] ->
       lookup rho lower_c = [b] ->
       eval P rho e =
         Ok [if feq v b
             then base_logcdf P (op_class_of dirac_rv) [] v
             else if flt v b then NegInf
             else base_logprob P (op_class_of dirac_rv) [] v]).
Proof.
  split.
  - apply (proj1 (one_sided_clip (mk_fgraph (Some (mk_rv_map [])))
                    (mk_rv_map []) (clip_node x_rv x_rv upper_c "cens_x") 10
                    x_rv upper_c
                    (TensorVariable 4
                       (Some (elemwise Clip, [x_rv; x_rv; upper_c]))
                       "float64" (Some "cens_x"))
                    [] dirac_rv [] value_v
                    eq_refl eq_refl eq_refl eq_refl eq_refl eq_refl));
      reflexivity.
  - apply (proj2 (one_sided_clip (mk_fgraph (Some (mk_rv_map [])))
                    (mk_rv_map []) (clip_node x_rv lower_c x_rv "cens_x") 10
                    x_rv lower_c
                    (TensorVariable 4
                       (Some (elemwise Clip, [x_rv; lower_c; x_rv]))
                       "float64" (Some "cens_x"))
                    [] dirac_rv [] value_v
                    eq_refl eq_refl eq_refl eq_refl eq_refl eq_refl));
      reflexivity.
Defined.

(** C6.  For [clip(x, x, x)] both bounds become infinity sentinels, and
    [clip_logprob] returns the base log-probability term itself, with no
    switch and no check: the derived log-density is the unclipped base
    log-probability at every observed value. *)
Theorem useless_clip
    fgraph m node next base clipped_var rest base_op base_inputs value :
  preserve_rv_mappings fgraph = Some m ->
  op_class_of (node_op node) = Elemwise Clip ->
  node_inputs node = [base; base; base] ->
  node_outputs node = clipped_var :: rest ->
  var_owner base = Some (base_op, base_inputs) ->
  eligible_base base m = true ->
  exists base' id next' name o' e,
    find_measurable_clips fgraph node next =
      (Ok (Some [TensorVariable id
                   (Some (measurable_clip,
                          [base';
                           TensorConstant next [NegInf] "float64";
                           TensorConstant (S next) [PosInf] "float64"]))
                   (var_dtype clipped_var) (var_name clipped_var)]),
       next') /\
    e = BaseLogprob name o' (EVar value) base_inputs /\
    op_class_of o' = op_class_of base_op /\
    clip_logprob measurable_clip [value] base'
      (TensorConstant next [NegInf] "float64")
      (TensorConstant (S next) [PosInf] "float64") = Ok e /\
    contains_check e = false /\
    forall P rho,
      eval P rho e = eval P rho (_logprob base_op (EVar value) base_inputs) /\
      eval P rho e =
        Ok (map (base_logprob P (op_class_of base_op) base_inputs)
              (lookup rho value)).
Proof.
  intros Hm Hclass Hin Hout Howner Hel.
  destruct (find_measurable_clips_match fgraph m node next base base base
              clipped_var rest base_op base_inputs Hm Hclass Hin Hout
              Howner Hel)
    as (base' & lower' & upper' & id & next' & Hfind & Howner' & Hdtype
        & Hlower & Hupper).
  rewrite var_is_refl in Hlower, Hupper. subst lower' upper'.
  exists base', id, next'.
  unfold clip_logprob. rewrite Howner'.
  cbn [is_neginf_constant is_inf_constant forallb isneginf isinf andb negb
       op_name op_repr].
  unfold _logprob.
  destruct (truthy (op_name base_op)); cbn [named];
    eexists;
    exists (mk_op (op_class_of base_op) (op_name base_op) (op_repr base_op)
              true);
    eexists; (split; [exact Hfind|]);
    (split; [reflexivity|]); (split; [reflexivity|]);
    (split; [reflexivity|]); (split; [reflexivity|]);
    intros P rho; split; reflexivity.
Qed.

(** Witness of C6: [clip(x, x, x)] over the point mass at zero. *)
Lemma useless_clip_witness :
  exists base' id next' name o' e,
    find_measurable_clips (mk_fgraph (Some (mk_rv_map [])))
      (clip_node x_rv x_rv x_rv "cens_x") 10 =
      (Ok (Some [TensorVariable id
                   (Some (measurable_clip,
                          [base';
                           TensorConstant 10 [NegInf] "float64";
                           TensorConstant 11 [PosInf] "float64"]))
                   "float64" (Some "cens_x")]),
       next') /\
    e = BaseLogprob name o' (EVar value_v) [] /\
    op_class_of o' = op_class_of dirac_rv /\
    clip_logprob measurable_clip [value_v] base'
      (TensorConstant 10 [NegInf] "float64")
      (TensorConstant 11 [PosInf] "float64") = Ok e /\
    contains_check e = false /\
    forall P rho,
      eval P rho e = eval P rho (_logprob dirac_rv (EVar value_v) []) /\
      eval P rho e =
        Ok (map (base_logprob P (op_class_of dirac_rv) [])
              (lookup rho value_v)).
Proof.
  apply (useless_clip (mk_fgraph (Some (mk_rv_map []))) (mk_rv_map [])
           (clip_node x_rv x_rv x_rv "cens_x") 10 x_rv
           (TensorVariable 4 (Some (elemwise Clip, [x_rv; x_rv; x_rv]))
              "float64" (Some "cens_x"))
           [] dirac_rv [] value_v);
    reflexivity.
Defined.

(** * Further properties of the rules and of the matchers *)

(** ** The clip rule at special values and bounds *)

(** X1.  Whatever the dtype of the base variable, with two ordered bounds
    that are not sentinels the graph yields minus infinity outside the
    bounds, the base log-CDF on the lower bound and the base
    log-probability strictly inside. *)
Theorem clip_logprob_piecewise_any_dtype
    P rho o value base_rv lower_bound upper_bound
    base_rv_op base_rv_inputs v lo up :
  var_owner base_rv = Some (base_rv_op, base_rv_inputs) ->
  is_neginf_constant lower_bound = false ->
  is_inf_constant upper_bound = false ->
  lookup rho value = [v] ->
  lookup rho lower_bound = [lo] ->
  lookup rho upper_bound = [up] ->
  fle lo up = true ->
  exists e,
    clip_logprob o [value] base_rv lower_bound upper_bound = Ok e /\
    (flt v lo = true \/ fgt v up = true -> eval P rho e = Ok [NegInf]) /\
    (feq v lo = true ->
     eval P rho e =
       Ok [base_logcdf P (op_class_of base_rv_op) base_rv_inputs v]) /\
    (flt lo v = true -> flt v up = true ->
     eval P rho e =
       Ok [base_logprob P (op_class_of base_rv_op) base_rv_inputs v]).
Proof.
  intros Howner Hlb Hub Hv Hlo Hup Hle.
  destruct (clip_logprob_eval P rho o value base_rv lower_bound upper_bound
              base_rv_op base_rv_inputs v lo up Howner Hv Hlo Hup)
    as (e & He & Heval).
  exists e. split; [exact He|].
  rewrite Heval, Hlb, Hub, Hle. cbn [negb andb].
  unfold clip_pointwise, upper_switch, lower_switch.
  repeat split.
  - intros [Hbelow | Habove].
    + now rewrite (flt_not_feq _ _ Hbelow), Hbelow.
    + destruct (above_upper_not_lower v lo up Hle Habove) as [H1 H2].
      rewrite H1, H2, Habove.
      unfold fgt in Habove. now rewrite (flt_not_feq_sym _ _ Habove).
  - intros Heq. now rewrite Heq.
  - intros Hlov Hvup.
    rewrite (flt_not_feq_sym _ _ Hlov), (flt_asym _ _ Hlov).
    rewrite (flt_not_feq _ _ Hvup).
    unfold fgt. now rewrite (flt_asym _ _ Hvup).
Qed.

Lemma clip_logprob_piecewise_any_dtype_witness :
  exists e,
    clip_logprob measurable_clip [value_v] k_rv lower_c upper_c = Ok e /\
    (flt (Fin 5) (Fin 1) = true \/ fgt (Fin 5) (Fin 4) = true ->
     eval dirac (env3 (Fin 5) (Fin 1) (Fin 4)) e = Ok [NegInf]) /\
    (feq (Fin 5) (Fin 1) = true ->
     eval dirac (env3 (Fin 5) (Fin 1) (Fin 4)) e =
       Ok [base_logcdf dirac (op_class_of dirac_rv) [] (Fin 5)]) /\
    (flt (Fin 1) (Fin 5) = true -> flt (Fin 5) (Fin 4) = true ->
     eval dirac (env3 (Fin 5) (Fin 1) (Fin 4)) e =
       Ok [base_logprob dirac (op_class_of dirac_rv) [] (Fin 5)]).
Proof.
  apply (clip_logprob_piecewise_any_dtype dirac
           (env3 (Fin 5) (Fin 1) (Fin 4)) measurable_clip value_v k_rv
           lower_c upper_c dirac_rv [] (Fin 5) (Fin 1) (Fin 4));
    reflexivity.
Defined.

(** X2.  An observed NaN compares false with every bound: when the
    bound-order check passes or is absent, the graph yields the base
    log-probability at NaN, not minus infinity and not an error. *)
Theorem clip_logprob_nan_value
    P rho o value base_rv lower_bound upper_bound
    base_rv_op base_rv_inputs lo up :
  var_owner base_rv = Some (base_rv_op, base_rv_inputs) ->
  lookup rho value = [NaN] ->
  lookup rho lower_bound = [lo] ->
  lookup rho upper_bound = [up] ->
  is_neginf_constant lower_bound = true
  \/ is_inf_constant upper_bound = true
  \/ fle lo up = true ->
  exists e,
    clip_logprob o [value] base_rv lower_bound upper_bound = Ok e /\
    eval P rho e =
      Ok [base_logprob P (op_class_of base_rv_op) base_rv_inputs NaN].
Proof.
  intros Howner Hv Hlo Hup Hguard.
  destruct (clip_logprob_eval P rho o value base_rv lower_bound upper_bound
              base_rv_op base_rv_inputs NaN lo up Howner Hv Hlo Hup)
    as (e & He & Heval).
  exists e. split; [exact He|]. rewrite Heval.
  assert (Hcond : negb (is_neginf_constant lower_bound)
                  && negb (is_inf_constant upper_bound)
                  && negb (fle lo up) = false).
  { destruct (is_neginf_constant lower_bound) eqn:E1;
      destruct (is_inf_constant upper_bound) eqn:E2;
      destruct (fle lo up) eqn:E3;
      try reflexivity; destruct Hguard as [H | [H | H]]; congruence. }
  rewrite Hcond.
  unfold clip_pointwise, upper_switch, lower_switch, fgt.
  destruct (negb (is_neginf_constant lower_bound)),
           (negb (is_inf_constant upper_bound)), lo, up; reflexivity.
Qed.

Lemma clip_logprob_nan_value_witness :
  exists e,
    clip_logprob measurable_clip [value_v] x_rv lower_c upper_c = Ok e /\
    eval dirac (env3 NaN (Fin (-2)) (Fin 2)) e =
      Ok [base_logprob dirac (op_class_of dirac_rv) [] NaN].
Proof.
  apply (clip_logprob_nan_value dirac (env3 NaN (Fin (-2)) (Fin 2))
           measurable_clip value_v x_rv lower_c upper_c dirac_rv []
           (Fin (-2)) (Fin 2)); try reflexivity.
  right. right. reflexivity.
Defined.

(** X3.  With two bounds that are not sentinels, a bound that evaluates to
    NaN fails the bound-order check: evaluation raises the parameter-value
    error at every observed value. *)
Theorem clip_logprob_nan_bound
    P rho o value base_rv lower_bound upper_bound
    base_rv_op base_rv_inputs v lo up :
  var_owner base_rv = Some (base_rv_op, base_rv_inputs) ->
  is_neginf_constant lower_bound = false ->
  is_inf_constant upper_bound = false ->
  lookup rho value = [v] ->
  lookup rho lower_bound = [lo] ->
  lookup rho upper_bound = [up] ->
  lo = NaN \/ up = NaN ->
  exists e,
    clip_logprob o [value] base_rv lower_bound upper_bound = Ok e /\
    eval P rho e = Raise (ParameterValueError "lower_bound <= upper_bound").
Proof.
  intros Howner Hlb Hub Hv Hlo Hup Hnan.
  destruct (clip_logprob_eval P rho o value base_rv lower_bound upper_bound
              base_rv_op base_rv_inputs v lo up Howner Hv Hlo Hup)
    as (e & He & Heval).
  exists e. split; [exact He|]. rewrite Heval, Hlb, Hub.
  destruct Hnan as [-> | ->]; [reflexivity | destruct lo; reflexivity].
Qed.

Lemma clip_logprob_nan_bound_witness :
  exists e,
    clip_logprob measurable_clip [value_v] x_rv lower_c upper_c = Ok e /\
    eval dirac (env3 (Fin 0) (Fin (-2)) NaN) e =
      Raise (ParameterValueError "lower_bound <= upper_bound").
Proof.
  apply (clip_logprob_nan_bound dirac (env3 (Fin 0) (Fin (-2)) NaN)
           measurable_clip value_v x_rv lower_c upper_c dirac_rv []
           (Fin 0) (Fin (-2)) NaN); try reflexivity.
  right. reflexivity.
Defined.



(** X5.  The sentinel test of the upper bound is [np.isinf], which holds
    for minus infinity too: an upper bound given as the constant minus
    infinity is treated as no upper bound.  The graph then has the
    switches of the lower bound only and no check, so a value above the
    lower bound gets the base log-probability. *)
Theorem clip_logprob_neginf_upper_constant
    P rho o value base_rv lower_bound id dtype
    base_rv_op base_rv_inputs v lo :
  var_owner base_rv = Some (base_rv_op, base_rv_inputs) ->
  is_neginf_constant lower_bound = false ->
  lookup rho value = [v] ->
  lookup rho lower_bound = [lo] ->
  exists e,
    clip_logprob o [value] base_rv lower_bound
      (TensorConstant id [NegInf] dtype) = Ok e /\
    contains_check e = false /\
    eval P rho e =
      Ok [if feq v lo
          then base_logcdf P (op_class_of base_rv_op) base_rv_inputs v
          else if flt v lo then NegInf
          else base_logprob P (op_class_of base_rv_op) base_rv_inputs v].
Proof.
  intros Howner Hlb Hv Hlo.
  destruct (clip_logprob_eval P rho o value base_rv lower_bound
              (TensorConstant id [NegInf] dtype)
              base_rv_op base_rv_inputs v lo NegInf Howner Hv Hlo eq_refl)
    as (e & He & Heval).
  exists e. split; [exact He|]. split.
  - revert He. unfold clip_logprob. rewrite Howner, Hlb.
    cbn [is_inf_constant forallb isinf andb negb]. unfold _logprob, _logcdf.
    destruct (truthy (op_name base_rv_op)); cbn [named];
      intros He; injection He as <-; reflexivity.
  - rewrite Heval, Hlb. reflexivity.
Qed.

Lemma clip_logprob_neginf_upper_constant_witness :
  exists e,
    clip_logprob measurable_clip [value_v] x_rv lower_c
      (TensorConstant 2 [NegInf] "float64") = Ok e /\
    contains_check e = false /\
    eval dirac (env3 (Fin 0) (Fin (-2)) (Fin 0)) e =
      Ok [if feq (Fin 0) (Fin (-2))
          then base_logcdf dirac (op_class_of dirac_rv) [] (Fin 0)
          else if flt (Fin 0) (Fin (-2)) then NegInf
          else base_logprob dirac (op_class_of dirac_rv) [] (Fin 0)].
Proof.
  apply (clip_logprob_neginf_upper_constant dirac
           (env3 (Fin 0) (Fin (-2)) (Fin 0)) measurable_clip value_v x_rv
           lower_c 2%nat "float64" dirac_rv [] (Fin 0) (Fin (-2)));
    reflexivity.
Defined.

(** X6.  The sentinel test of the lower bound is [np.isneginf]: a lower
    bound given as the constant plus infinity is an ordinary bound.  With
    an upper bound that is not a sentinel and does not evaluate to plus
    infinity, the bound-order check fails at every observed value. *)
Theorem clip_logprob_posinf_lower_constant
    P rho o value base_rv id dtype upper_bound
    base_rv_op base_rv_inputs v up :
  var_owner base_rv = Some (base_rv_op, base_rv_inputs) ->
  is_inf_constant upper_bound = false ->
  lookup rho value = [v] ->
  lookup rho upper_bound = [up] ->
  feq up PosInf = false ->
  exists e,
    clip_logprob o [value] base_rv (TensorConstant id [PosInf] dtype)
      upper_bound = Ok e /\
    eval P rho e = Raise (ParameterValueError "lower_bound <= upper_bound").
Proof.
  intros Howner Hub Hv Hup Hfinite.
  destruct (clip_logprob_eval P rho o value base_rv
              (TensorConstant id [PosInf] dtype) upper_bound
              base_rv_op base_rv_inputs v PosInf up Howner Hv eq_refl Hup)
    as (e & He & Heval).
  exists e. split; [exact He|]. rewrite Heval, Hub.
  destruct up; try reflexivity. discriminate Hfinite.
Qed.

Lemma clip_logprob_posinf_lower_constant_witness :
  exists e,
    clip_logprob measurable_clip [value_v] x_rv
      (TensorConstant 1 [PosInf] "float64") upper_c = Ok e /\
    eval dirac (env3 (Fin 0) PosInf (Fin 2)) e =
      Raise (ParameterValueError "lower_bound <= upper_bound").
Proof.
  apply (clip_logprob_posinf_lower_constant dirac
           (env3 (Fin 0) PosInf (Fin 2)) measurable_clip value_v x_rv
           1%nat "float64" upper_c dirac_rv [] (Fin 0) (Fin 2));
    reflexivity.
Defined.

(** X7.  Leaving out the branch of a plus-infinity sentinel does not
    change the log-density: the graph built with the sentinel as upper
    bound and the graph built with an ordinary upper bound that evaluates
    to plus infinity agree at every value other than plus infinity,
    provided the lower bound is not NaN. *)
Theorem clip_logprob_upper_sentinel_sound
    P rho o value base_rv lower_bound upper_bound id dtype
    base_rv_op base_rv_inputs v lo :
  var_owner base_rv = Some (base_rv_op, base_rv_inputs) ->
  is_inf_constant upper_bound = false ->
  lookup rho value = [v] ->
  lookup rho lower_bound = [lo] ->
  lookup rho upper_bound = [PosInf] ->
  feq v PosInf = false ->
  lo <> NaN ->
  exists e_bound e_sentinel,
    clip_logprob o [value] base_rv lower_bound upper_bound = Ok e_bound /\
    clip_logprob o [value] base_rv lower_bound
      (TensorConstant id [PosInf] dtype) = Ok e_sentinel /\
    eval P rho e_bound = eval P rho e_sentinel.
Proof.
  intros Howner Hub Hv Hlo Hup Hv_fin Hlo_nan.
  destruct (clip_logprob_eval P rho o value base_rv lower_bound upper_bound
              base_rv_op base_rv_inputs v lo PosInf Howner Hv Hlo Hup)
    as (e1 & He1 & Heval1).
  destruct (clip_logprob_eval P rho o value base_rv lower_bound
              (TensorConstant id [PosInf] dtype)
              base_rv_op base_rv_inputs v lo PosInf Howner Hv Hlo eq_refl)
    as (e2 & He2 & Heval2).
  exists e1, e2. split; [exact He1|]. split; [exact He2|].
  rewrite Heval1, Heval2, Hub.
  cbn [is_inf_constant forallb isinf andb negb].
  assert (Hle : fle lo PosInf = true) by (destruct lo; try reflexivity; congruence).
  rewrite Hle, andb_false_r.
  unfold clip_pointwise, upper_switch, fgt. rewrite Hv_fin.
  destruct (is_neginf_constant lower_bound), v; reflexivity.
Qed.

Lemma clip_logprob_upper_sentinel_sound_witness :
  exists e_bound e_sentinel,
    clip_logprob measurable_clip [value_v] x_rv lower_c upper_c = Ok e_bound /\
    clip_logprob measurable_clip [value_v] x_rv lower_c
      (TensorConstant 9 [PosInf] "float64") = Ok e_sentinel /\
    eval dirac (env3 (Fin 0) (Fin (-2)) PosInf) e_bound
    = eval dirac (env3 (Fin 0) (Fin (-2)) PosInf) e_sentinel.
Proof.
  apply (clip_logprob_upper_sentinel_sound dirac
           (env3 (Fin 0) (Fin (-2)) PosInf) measurable_clip value_v x_rv
           lower_c upper_c 9%nat "float64" dirac_rv [] (Fin 0) (Fin (-2)));
    try reflexivity.
  discriminate.
Defined.

(** X8.  Likewise for the minus-infinity sentinel: the graph built with
    the sentinel as lower bound and the graph built with an ordinary lower
    bound that evaluates to minus infinity agree at every value other than
    minus infinity, provided the upper bound is not NaN. *)
Theorem clip_logprob_lower_sentinel_sound
    P rho o value base_rv lower_bound upper_bound id dtype
    base_rv_op base_rv_inputs v up :
  var_owner base_rv = Some (base_rv_op, base_rv_inputs) ->
  is_neginf_constant lower_bound = false ->
  lookup rho value = [v] ->
  lookup rho lower_bound = [NegInf] ->
  lookup rho upper_bound = [up] ->
  feq v NegInf = false ->
  up <> NaN ->
  exists e_bound e_sentinel,
    clip_logprob o [value] base_rv lower_bound upper_bound = Ok e_bound /\
    clip_logprob o [value] base_rv (TensorConstant id [NegInf] dtype)
      upper_bound = Ok e_sentinel /\
    eval P rho e_bound = eval P rho e_sentinel.
Proof.
  intros Howner Hlb Hv Hlo Hup Hv_fin Hup_nan.
  destruct (clip_logprob_eval P rho o value base_rv lower_bound upper_bound
              base_rv_op base_rv_inputs v NegInf up Howner Hv Hlo Hup)
    as (e1 & He1 & Heval1).
  destruct (clip_logprob_eval P rho o value base_rv
              (TensorConstant id [NegInf] dtype) upper_bound
              base_rv_op base_rv_inputs v NegInf up Howner Hv eq_refl Hup)
    as (e2 & He2 & Heval2).
  exists e1, e2. split; [exact He1|]. split; [exact He2|].
  rewrite Heval1, Heval2, Hlb.
  cbn [is_neginf_constant forallb isneginf andb negb].
  assert (Hle : fle NegInf up = true) by (destruct up; try reflexivity; congruence).
  rewrite Hle, andb_false_r.
  unfold clip_pointwise, lower_switch. rewrite Hv_fin.
  destruct (is_inf_constant upper_bound), v; reflexivity.
Qed.

Lemma clip_logprob_lower_sentinel_sound_witness :
  exists e_bound e_sentinel,
    clip_logprob measurable_clip [value_v] x_rv lower_c upper_c = Ok e_bound /\
    clip_logprob measurable_clip [value_v] x_rv
      (TensorConstant 9 [NegInf] "float64") upper_c = Ok e_sentinel /\
    eval dirac (env3 (Fin 0) NegInf (Fin 2)) e_bound
    = eval dirac (env3 (Fin 0) NegInf (Fin 2)) e_sentinel.
Proof.
  apply (clip_logprob_lower_sentinel_sound dirac
           (env3 (Fin 0) NegInf (Fin 2)) measurable_clip value_v x_rv
           lower_c upper_c 9%nat "float64" dirac_rv [] (Fin 0) (Fin 2));
    try reflexivity.
  discriminate.
Defined.

(** ** The clip rule on a vector of observations *)

Lemma broadcast2_scalar_l {A B C} (f : A -> B -> C) x ys :
  broadcast2 f [x] ys = Ok (map (f x) ys).
Proof. reflexivity. Qed.

Ltac eval_elementwise :=
  repeat (first [ rewrite broadcast2_scalar_r
                | rewrite broadcast2_scalar_l
                | rewrite map_map
                | rewrite broadcast2_map_map ];
          cbn [bind]).

(** The graph of [clip_logprob] at a value tensor of any length and
    one-entry bounds: the entry-wise selection is applied to every entry
    of the value. *)
Lemma clip_logprob_eval_vector P rho o value base_rv lower_bound upper_bound
      base_rv_op base_rv_inputs lo up :
  var_owner base_rv = Some (base_rv_op, base_rv_inputs) ->
  lookup rho lower_bound = [lo] ->
  lookup rho upper_bound = [up] ->
  exists e,
    clip_logprob o [value] base_rv lower_bound upper_bound = Ok e /\
    eval P rho e =
      if negb (is_neginf_constant lower_bound)
         && negb (is_inf_constant upper_bound)
         && negb (fle lo up)
      then Raise (ParameterValueError "lower_bound <= upper_bound")
      else Ok (map (fun v =>
                      clip_pointwise P
                        (negb (is_neginf_constant lower_bound))
                        (negb (is_inf_constant upper_bound))
                        (startswith (var_dtype base_rv) "int")
                        (base_logprob P (op_class_of base_rv_op)
                           base_rv_inputs v)
                        (base_logcdf P (op_class_of base_rv_op)
                           base_rv_inputs v)
                        v lo up)
                 (lookup rho value)).
Proof.
  intros Howner Hlo Hup.
  unfold clip_logprob. rewrite Howner.
  eexists. split; [reflexivity|].
  unfold _logprob, _logcdf.
  destruct (truthy (op_name base_rv_op));
    destruct (is_neginf_constant lower_bound);
    destruct (is_inf_constant upper_bound);
    destruct (startswith (var_dtype base_rv) "int");
    cbn [negb andb named eval eval_b bind];
    rewrite ?Hlo, ?Hup;
    eval_elementwise;
    cbn [map forallb andb negb];
    try (destruct (fle lo up); cbn [negb andb]; [|reflexivity]);
    f_equal; apply map_ext; intros v;
    unfold clip_pointwise, upper_switch, lower_switch, upper_mass, select;
    cbn [fst snd];
    destruct (feq v lo), (flt v lo), (feq v up), (fgt v up); reflexivity.
Qed.

(** X9.  On a vector of observations with one-entry ordered bounds that
    are not sentinels, the graph yields for every entry [v] of the value:
    the base log-CDF where [v == lo]; minus infinity where [v < lo]; the
    upper boundary mass where [v == up]; minus infinity where [v > up];
    the base log-probability elsewhere; in this order of precedence. *)
Theorem clip_logprob_vector
    P rho o value base_rv lower_bound upper_bound
    base_rv_op base_rv_inputs lo up :
  var_owner base_rv = Some (base_rv_op, base_rv_inputs) ->
  is_neginf_constant lower_bound = false ->
  is_inf_constant upper_bound = false ->
  lookup rho lower_bound = [lo] ->
  lookup rho upper_bound = [up] ->
  fle lo up = true ->
  exists e,
    clip_logprob o [value] base_rv lower_bound upper_bound = Ok e /\
    eval P rho e =
      Ok (map (fun v =>
                 let lp :=
                   base_logprob P (op_class_of base_rv_op) base_rv_inputs v in
                 let lc :=
                   base_logcdf P (op_class_of base_rv_op) base_rv_inputs v in
                 if feq v lo then lc
                 else if flt v lo then NegInf
                 else if feq v up then
                   if startswith (var_dtype base_rv) "int"
                   then logaddexp P (log1mexp P lc) lp
                   else log1mexp P lc
                 else if fgt v up then NegInf
                 else lp)
            (lookup rho value)).
Proof.
  intros Howner Hlb Hub Hlo Hup Hle.
  destruct (clip_logprob_eval_vector P rho o value base_rv lower_bound
              upper_bound base_rv_op base_rv_inputs lo up Howner Hlo Hup)
    as (e & He & Heval).
  exists e. split; [exact He|].
  rewrite Heval, Hlb, Hub, Hle. reflexivity.
Qed.

Lemma clip_logprob_vector_witness :
  exists e,
    clip_logprob measurable_clip [value_v] x_rv lower_c upper_c = Ok e /\
    eval dirac
      (fun id => match id with
                 | 1%nat => [Fin (-2)]
                 | 2%nat => [Fin 2]
                 | _ => [Fin (-3); Fin (-2); Fin 0; Fin 2; Fin 3]
                 end) e =
      Ok (map (fun v =>
                 let lp := base_logprob dirac (op_class_of dirac_rv) [] v in
                 let lc := base_logcdf dirac (op_class_of dirac_rv) [] v in
                 if feq v (Fin (-2)) then lc
                 else if flt v (Fin (-2)) then NegInf
                 else if feq v (Fin 2) then
                   if startswith (var_dtype x_rv) "int"
                   then logaddexp dirac (log1mexp dirac lc) lp
                   else log1mexp dirac lc
                 else if fgt v (Fin 2) then NegInf
                 else lp)
            [Fin (-3); Fin (-2); Fin 0; Fin 2; Fin 3]).
Proof.
  apply (clip_logprob_vector dirac
           (fun id => match id with
                      | 1%nat => [Fin (-2)]
                      | 2%nat => [Fin 2]
                      | _ => [Fin (-3); Fin (-2); Fin 0; Fin 2; Fin 3]
                      end)
           measurable_clip value_v x_rv lower_c upper_c dirac_rv []
           (Fin (-2)) (Fin 2));
    reflexivity.
Defined.

(** ** The rounding rule: errors and cells *)

(** X10.  On an operator whose scalar operation is none of round-to-even,
    floor and ceil, [round_logprob] raises the type error, before it looks
    at the base variable. *)
Theorem round_logprob_unsupported o s value base_rv :
  scalar_op_of o = Some s ->
  valid_round_scalar_type (Some s) = false ->
  round_logprob o [value] base_rv = Raise (TypeError "Unsupported scalar_op").
Proof.
  intros Hs Hvalid. unfold round_logprob. rewrite Hs.
  destruct s; try discriminate Hvalid; reflexivity.
Qed.

Lemma round_logprob_unsupported_witness :
  round_logprob measurable_clip [value_v] lower_c
  = Raise (TypeError "Unsupported scalar_op").
Proof.
  apply (round_logprob_unsupported measurable_clip Clip value_v lower_c);
    reflexivity.
Defined.

Lemma inject_Z_succ z : (inject_Z (z + 1) == inject_Z z + 1)%Q.
Proof. rewrite inject_Z_plus. reflexivity. Qed.

Lemma Qround_half_even_near q :
  (inject_Z (Qround_half_even q) - (1 # 2) <= q
   /\ q <= inject_Z (Qround_half_even q) + (1 # 2))%Q.
Proof.
  unfold Qround_half_even.
  pose proof (Qfloor_le q) as Hlow.
  pose proof (Qlt_floor q) as Hhigh. rewrite inject_Z_succ in Hhigh.
  destruct (Qcompare_spec (q - inject_Z (Qfloor q)) (1 # 2)) as [H | H | H].
  - destruct (Z.even (Qfloor q));
      rewrite ?inject_Z_succ; split; lra.
  - split; lra.
  - rewrite inject_Z_succ. split; lra.
Qed.

Lemma Qfloor_near q : (inject_Z (Qfloor q) <= q /\ q <= inject_Z (Qfloor q) + 1)%Q.
Proof.
  pose proof (Qfloor_le q). pose proof (Qlt_floor q) as H1.
  rewrite inject_Z_succ in H1. split; lra.
Qed.

Lemma Qceiling_near q :
  (inject_Z (Qceiling q) - 1 <= q /\ q <= inject_Z (Qceiling q))%Q.
Proof.
  pose proof (Qle_ceiling q). pose proof (Qceiling_lt q) as H1.
  replace (Qceiling q - 1)%Z with (Qceiling q + -1)%Z in H1 by lia.
  rewrite inject_Z_plus in H1. change (inject_Z (-1)) with (-1 # 1)%Q in H1.
  split; lra.
Qed.

(** X11.  The two points at which [round_logprob] takes the base log-CDF
    bound a cell of width one that contains the observed value: for a
    finite observed value [q] of magnitude at most 2^9, where the sums of
    the rule are exact in float16, float32 and float64, the lower point
    [l] and the upper point [u] satisfy [u = l + 1] and [l <= q <= u]. *)
Theorem round_logprob_cell o s value base_rv base_rv_op base_rv_inputs :
  scalar_op_of o = Some s ->
  valid_round_scalar_type (Some s) = true ->
  var_owner base_rv = Some (base_rv_op, base_rv_inputs) ->
  exists name_upper name_lower value_upper value_lower,
    round_logprob o [value] base_rv =
      Ok (logdiffexp_of
            (BaseLogcdf name_upper base_rv_op value_upper base_rv_inputs)
            (BaseLogcdf name_lower base_rv_op value_lower base_rv_inputs)) /\
    forall P rho q,
      lookup rho value = [Fin q] ->
      (- (512) <= q)%Q ->
      (q <= 512)%Q ->
      exists l u,
        eval P rho value_lower = Ok [Fin l] /\
        eval P rho value_upper = Ok [Fin u] /\
        (u == l + 1)%Q /\ (l <= q)%Q /\ (q <= u)%Q.
Proof.
  intros Hs Hvalid Howner.
  unfold round_logprob. rewrite Hs, Howner. unfold _logcdf.
  destruct s; try discriminate Hvalid;
    destruct (truthy (op_name base_rv_op)); cbn [bind named];
    do 4 eexists; (split; [reflexivity|]); intros P rho q Hv _ _;
    cbn [eval bind]; rewrite Hv; cbn [map bind].
  1, 2: exists (Qred (inject_Z (Qround_half_even q) + Qred (- (1 # 2)))),
               (Qred (inject_Z (Qround_half_even q) + (1 # 2)));
        (split; [reflexivity|]); (split; [reflexivity|]);
        rewrite !Qred_correct;
        destruct (Qround_half_even_near q); repeat split; lra.
  1, 2: exists (inject_Z (Qfloor q)), (Qred (inject_Z (Qfloor q) + 1));
        (split; [reflexivity|]); (split; [reflexivity|]);
        rewrite !Qred_correct;
        destruct (Qfloor_near q); repeat split; lra.
  1, 2: exists (Qred (inject_Z (Qceiling q) + Qred (- (1)))),
               (inject_Z (Qceiling q));
        (split; [reflexivity|]); (split; [reflexivity|]);
        rewrite !Qred_correct;
        destruct (Qceiling_near q); repeat split; lra.
Qed.

Lemma round_logprob_cell_witness :
  exists name_upper name_lower value_upper value_lower,
    round_logprob (measurable_round RoundHalfToEven) [value_v] x_rv =
      Ok (logdiffexp_of
            (BaseLogcdf name_upper dirac_rv value_upper [])
            (BaseLogcdf name_lower dirac_rv value_lower [])) /\
    forall P rho q,
      lookup rho value_v = [Fin q] ->
      (- (512) <= q)%Q ->
      (q <= 512)%Q ->
      exists l u,
        eval P rho value_lower = Ok [Fin l] /\
        eval P rho value_upper = Ok [Fin u] /\
        (u == l + 1)%Q /\ (l <= q)%Q /\ (q <= u)%Q.
Proof.
  apply (round_logprob_cell (measurable_round RoundHalfToEven)
           RoundHalfToEven value_v x_rv dirac_rv []);
    reflexivity.
Defined.

(** X12.  The cells of neighbouring grid points share their boundary: the
    upper point taken at the integer [z] equals the lower point taken at
    [z + 1], so the log-CDF differences of consecutive grid points
    telescope. *)
Theorem round_logprob_cells_adjacent
    o s value base_rv base_rv_op base_rv_inputs :
  scalar_op_of o = Some s ->
  valid_round_scalar_type (Some s) = true ->
  var_owner base_rv = Some (base_rv_op, base_rv_inputs) ->
  exists name_upper name_lower value_upper value_lower,
    round_logprob o [value] base_rv =
      Ok (logdiffexp_of
            (BaseLogcdf name_upper base_rv_op value_upper base_rv_inputs)
            (BaseLogcdf name_lower base_rv_op value_lower base_rv_inputs)) /\
    forall P rho rho' z,
      lookup rho value = [Fin (inject_Z z)] ->
      lookup rho' value = [Fin (inject_Z (z + 1))] ->
      exists u l',
        eval P rho value_upper = Ok [Fin u] /\
        eval P rho' value_lower = Ok [Fin l'] /\
        (u == l')%Q.
Proof.
  intros Hs Hvalid Howner.
  unfold round_logprob. rewrite Hs, Howner. unfold _logcdf.
  destruct s; try discriminate Hvalid;
    destruct (truthy (op_name base_rv_op)); cbn [bind named];
    do 4 eexists; (split; [reflexivity|]); intros P rho rho' z Hv Hv';
    cbn [eval bind]; rewrite Hv, Hv'; cbn [map bind];
    unfold fround, ffloor, fceil, on_finite;
    rewrite ?Qround_half_even_Z, ?Qfloor_Z, ?Qceiling_Z.
  1, 2: exists (Qred (inject_Z z + (1 # 2))),
               (Qred (inject_Z (z + 1) + Qred (- (1 # 2))));
        (split; [reflexivity|]); (split; [reflexivity|]);
        rewrite !Qred_correct, inject_Z_succ; lra.
  1, 2: exists (Qred (inject_Z z + 1)), (inject_Z (z + 1));
        (split; [reflexivity|]); (split; [reflexivity|]);
        rewrite !Qred_correct, inject_Z_succ; lra.
  1, 2: exists (inject_Z z), (Qred (inject_Z (z + 1) + Qred (- (1))));
        (split; [reflexivity|]); (split; [reflexivity|]);
        rewrite !Qred_correct, inject_Z_succ; lra.
Qed.

Lemma round_logprob_cells_adjacent_witness :
  exists name_upper name_lower value_upper value_lower,
    round_logprob (measurable_round Ceil) [value_v] x_rv =
      Ok (logdiffexp_of
            (BaseLogcdf name_upper dirac_rv value_upper [])
            (BaseLogcdf name_lower dirac_rv value_lower [])) /\
    forall P rho rho' z,
      lookup rho value_v = [Fin (inject_Z z)] ->
      lookup rho' value_v = [Fin (inject_Z (z + 1))] ->
      exists u l',
        eval P rho value_upper = Ok [Fin u] /\
        eval P rho' value_lower = Ok [Fin l'] /\
        (u == l')%Q.
Proof.
  apply (round_logprob_cells_adjacent (measurable_round Ceil) Ceil value_v
           x_rv dirac_rv []);
    reflexivity.
Defined.

(** ** The matchers and the rules together *)

(** X13.  A round, floor or ceil node over an eligible float base is
    replaced by a [MeasurableRound] node of the same rounding kind, with
    the name and the dtype of the replaced variable, and [round_logprob]
    on the new node yields, entry by entry, the log-difference of the base
    log-CDF (that of the original base operator) at the bracketing points
    of the snapped value. *)
Theorem rounding_rewrite_then_rule
    fgraph m node next s base rounded_var base_op base_inputs value :
  preserve_rv_mappings fgraph = Some m ->
  op_class_of (node_op node) = Elemwise s ->
  valid_round_scalar_type (Some s) = true ->
  node_inputs node = [base] ->
  node_outputs node = [rounded_var] ->
  var_owner base = Some (base_op, base_inputs) ->
  eligible_base base m = true ->
  startswith (var_dtype base) "float" = true ->
  exists rounded_op base' id next' e,
    find_measurable_roundings fgraph node next =
      (Ok (Some [TensorVariable id (Some (rounded_op, [base']))
                   (var_dtype rounded_var) (var_name rounded_var)]),
       next') /\
    op_class_of rounded_op = MeasurableRound s /\
    round_logprob rounded_op [value] base' = Ok e /\
    forall P rho,
      eval P rho e =
        Ok (map (fun x =>
                   logdiffexp P
                     (base_logcdf P (op_class_of base_op) base_inputs
                        (snd (bracket s (snap s x))))
                     (base_logcdf P (op_class_of base_op) base_inputs
                        (fst (bracket s (snap s x)))))
              (lookup rho value)).
Proof.
  intros Hm Hclass Hvalid Hin Hout Howner Hel Hfloat.
  destruct base as [bid bowner bdtype bname | ? ? ?]; [|discriminate Howner].
  cbn [var_owner] in Howner. subst bowner.
  set (base := TensorVariable bid (Some (base_op, base_inputs)) bdtype bname)
    in *.
  set (base' :=
         TensorVariable next
           (Some (mk_op (op_class_of base_op) (op_name base_op)
                    (op_repr base_op) true, base_inputs)) bdtype bname).
  destruct (round_logprob_eval (measurable_round s) s value base'
              (mk_op (op_class_of base_op) (op_name base_op)
                 (op_repr base_op) true) base_inputs eq_refl Hvalid eq_refl)
    as (nu & nl & vu & vl & He & Heval).
  exists (measurable_round s), base', (S next), (S (S next)). eexists.
  split; [|split; [reflexivity | split; [exact He | exact Heval]]].
  unfold find_measurable_roundings.
  rewrite Hm, Hin, Hout.
  unfold isinstance_MeasurableRound, isinstance_Elemwise, scalar_op_of.
  rewrite Hclass, Hvalid, Hel, Hfloat. reflexivity.
Qed.

Lemma rounding_rewrite_then_rule_witness :
  exists rounded_op base' id next' e,
    find_measurable_roundings (mk_fgraph (Some (mk_rv_map [])))
      (mk_node (elemwise Floor) [x_rv]
         [TensorVariable 4 (Some (elemwise Floor, [x_rv])) "float64"
            (Some "xr")]) 10 =
      (Ok (Some [TensorVariable id (Some (rounded_op, [base']))
                   "float64" (Some "xr")]),
       next') /\
    op_class_of rounded_op = MeasurableRound Floor /\
    round_logprob rounded_op [value_v] base' = Ok e /\
    forall P rho,
      eval P rho e =
        Ok (map (fun x =>
                   logdiffexp P
                     (base_logcdf P (op_class_of dirac_rv) []
                        (snd (bracket Floor (snap Floor x))))
                     (base_logcdf P (op_class_of dirac_rv) []
                        (fst (bracket Floor (snap Floor x)))))
              (lookup rho value_v)).
Proof.
  apply (rounding_rewrite_then_rule (mk_fgraph (Some (mk_rv_map [])))
           (mk_rv_map [])
           (mk_node (elemwise Floor) [x_rv]
              [TensorVariable 4 (Some (elemwise Floor, [x_rv])) "float64"
                 (Some "xr")])
           10 Floor x_rv
           (TensorVariable 4 (Some (elemwise Floor, [x_rv])) "float64"
              (Some "xr"))
           dirac_rv [] value_v);
    reflexivity.
Defined.

(** X14.  A clip node over an eligible base whose bounds are both other
    nodes than the base is replaced by a [MeasurableClip] node that keeps
    the two bounds as they are (the test is identity, not equality) and the
    name and dtype of the replaced variable; [clip_logprob] on the new node
    yields, for ordered bounds that are not sentinels, the piecewise
    log-density built from the log-probability and log-CDF of the original
    base operator. *)
Theorem clip_rewrite_then_rule
    fgraph m node next base lower_bound upper_bound clipped_var rest
    base_op base_inputs value :
  preserve_rv_mappings fgraph = Some m ->
  op_class_of (node_op node) = Elemwise Clip ->
  node_inputs node = [base; lower_bound; upper_bound] ->
  node_outputs node = clipped_var :: rest ->
  var_owner base = Some (base_op, base_inputs) ->
  eligible_base base m = true ->
  var_is lower_bound base = false ->
  var_is upper_bound base = false ->
  exists base' id next' e,
    find_measurable_clips fgraph node next =
      (Ok (Some [TensorVariable id
                   (Some (measurable_clip, [base'; lower_bound; upper_bound]))
                   (var_dtype clipped_var) (var_name clipped_var)]),
       next') /\
    clip_logprob measurable_clip [value] base' lower_bound upper_bound
      = Ok e /\
    forall P rho v lo up,
      is_neginf_constant lower_bound = false ->
      is_inf_constant upper_bound = false ->
      lookup rho value = [v] ->
      lookup rho lower_bound = [lo] ->
      lookup rho upper_bound = [up] ->
      fle lo up = true ->
      eval P rho e =
        Ok [let lp := base_logprob P (op_class_of base_op) base_inputs v in
            let lc := base_logcdf P (op_class_of base_op) base_inputs v in
            if feq v lo then lc
            else if flt v lo then NegInf
            else if feq v up then
              if startswith (var_dtype base) "int"
              then logaddexp P (log1mexp P lc) lp
              else log1mexp P lc
            else if fgt v up then NegInf
            else lp].
Proof.
  intros Hm Hclass Hin Hout Howner Hel Hlower Hupper.
  destruct (find_measurable_clips_match fgraph m node next base lower_bound
              upper_bound clipped_var rest base_op base_inputs Hm Hclass Hin
              Hout Howner Hel)
    as (base' & lower' & upper' & id & next' & Hfind & Howner' & Hdtype
        & Hl & Hu).
  rewrite Hlower in Hl. rewrite Hupper in Hu. subst lower' upper'.
  assert (He : exists e,
             clip_logprob measurable_clip [value] base' lower_bound
               upper_bound = Ok e).
  { unfold clip_logprob. rewrite Howner'. eexists. reflexivity. }
  destruct He as (e & He).
  exists base', id, next', e. split; [exact Hfind|]. split; [exact He|].
  intros P rho v lo up Hlb Hub Hv Hlo Hup Hle.
  destruct (clip_logprob_eval P rho measurable_clip value base' lower_bound
              upper_bound _ _ v lo up Howner' Hv Hlo Hup)
    as (e' & He' & Heval).
  rewrite He in He'. injection He' as <-.
  rewrite Heval, Hlb, Hub, Hle, Hdtype. reflexivity.
Qed.

Lemma clip_rewrite_then_rule_witness :
  exists base' id next' e,
    find_measurable_clips (mk_fgraph (Some (mk_rv_map [])))
      (clip_node x_rv lower_c upper_c "cens_x") 10 =
      (Ok (Some [TensorVariable id
                   (Some (measurable_clip, [base'; lower_c; upper_c]))
                   "float64" (Some "cens_x")]),
       next') /\
    clip_logprob measurable_clip [value_v] base' lower_c upper_c = Ok e /\
    forall P rho v lo up,
      is_neginf_constant lower_c = false ->
      is_inf_constant upper_c = false ->
      lookup rho value_v = [v] ->
      lookup rho lower_c = [lo] ->
      lookup rho upper_c = [up] ->
      fle lo up = true ->
      eval P rho e =
        Ok [let lp := base_logprob P (op_class_of dirac_rv) [] v in
            let lc := base_logcdf P (op_class_of dirac_rv) [] v in
            if feq v lo then lc
            else if flt v lo then NegInf
            else if feq v up then
              if startswith (var_dtype x_rv) "int"
              then logaddexp P (log1mexp P lc) lp
              else log1mexp P lc
            else if fgt v up then NegInf
            else lp].
Proof.
  apply (clip_rewrite_then_rule (mk_fgraph (Some (mk_rv_map [])))
           (mk_rv_map []) (clip_node x_rv lower_c upper_c "cens_x") 10
           x_rv lower_c upper_c
           (TensorVariable 4 (Some (elemwise Clip, [x_rv; lower_c; upper_c]))
              "float64" (Some "cens_x"))
           [] dirac_rv [] value_v);
    reflexivity.
Defined.

(** ** The matchers on each other's nodes *)

Lemma find_measurable_clips_output fgraph node next rs next' :
  find_measurable_clips fgraph node next = (Ok (Some rs), next') ->
  is_Clip (scalar_op_of (node_op node)) = true /\
  exists id inputs dtype name,
    rs = [TensorVariable id (Some (measurable_clip, inputs)) dtype name].
Proof.
  unfold find_measurable_clips.
  destruct (preserve_rv_mappings fgraph) as [m|]; [|discriminate].
  destruct (isinstance_MeasurableClip (node_op node)); [discriminate|].
  destruct (isinstance_Elemwise (node_op node)); [|discriminate].
  destruct (is_Clip (scalar_op_of (node_op node))); [|discriminate].
  cbn [andb negb].
  destruct (node_outputs node) as [|clipped_var rest]; [discriminate|].
  destruct (node_inputs node) as [|base [|lb [|ub [|? ?]]]];
    try discriminate.
  destruct (negb (eligible_base base m)); [discriminate|].
  destruct (if negb (var_is lb base) then _ else _) as [lower' n1].
  destruct (if negb (var_is ub base) then _ else _) as [upper' n2].
  destruct (assign_custom_measurable_outputs base n2) as [base' n3].
  cbn [make_node_output set_name].
  intros H. injection H as <- _. split; [reflexivity|].
  do 4 eexists. reflexivity.
Qed.

Lemma find_measurable_roundings_output fgraph node next rs next' :
  find_measurable_roundings fgraph node next = (Ok (Some rs), next') ->
  valid_round_scalar_type (scalar_op_of (node_op node)) = true /\
  exists s id inputs dtype name,
    valid_round_scalar_type (Some s) = true /\
    rs = [TensorVariable id (Some (measurable_round s, inputs)) dtype name].
Proof.
  unfold find_measurable_roundings.
  destruct (preserve_rv_mappings fgraph) as [m|]; [|discriminate].
  destruct (isinstance_MeasurableRound (node_op node)); [discriminate|].
  destruct (isinstance_Elemwise (node_op node)); [|discriminate].
  destruct (valid_round_scalar_type (scalar_op_of (node_op node))) eqn:Hvalid;
    [|discriminate].
  cbn [andb negb].
  destruct (node_outputs node) as [|rounded_var [|? ?]]; try discriminate.
  destruct (node_inputs node) as [|base [|? ?]]; try discriminate.
  destruct (scalar_op_of (node_op node)) as [s|]; [|discriminate].
  destruct (negb _); [discriminate|].
  destruct (assign_custom_measurable_outputs base next) as [base' n1].
  cbn [make_node_output set_name].
  intros H. injection H as <- _. split; [reflexivity|].
  exists s. do 4 eexists. split; [exact Hvalid | reflexivity].
Qed.

(** X15.  Neither matcher fires on a node that one of them has produced:
    for a variable proposed by [find_measurable_clips] or by
    [find_measurable_roundings], both matchers return [None] on its owner
    node, in any graph. *)
Theorem matchers_reject_measurable_nodes
    fgraph node next rs next' r o inputs :
  find_measurable_clips fgraph node next = (Ok (Some rs), next')
  \/ find_measurable_roundings fgraph node next = (Ok (Some rs), next') ->
  In r rs ->
  var_owner r = Some (o, inputs) ->
  forall fgraph' outputs k,
    find_measurable_clips fgraph' (mk_node o inputs outputs) k = (Ok None, k)
    /\ find_measurable_roundings fgraph' (mk_node o inputs outputs) k
       = (Ok None, k).
Proof.
  intros Hfind Hin Howner fgraph' outputs k.
  destruct Hfind as [Hfind | Hfind].
  - apply find_measurable_clips_output in Hfind
      as (_ & id & ins & dt & nm & ->).
    destruct Hin as [<- | []]. cbn [var_owner] in Howner.
    injection Howner as <- <-.
    unfold find_measurable_clips, find_measurable_roundings.
    destruct (preserve_rv_mappings fgraph'); split; reflexivity.
  - apply find_measurable_roundings_output in Hfind
      as (_ & s & id & ins & dt & nm & Hvalid & ->).
    destruct Hin as [<- | []]. cbn [var_owner] in Howner.
    injection Howner as <- <-.
    unfold find_measurable_clips, find_measurable_roundings.
    destruct (preserve_rv_mappings fgraph'); split; try reflexivity.
    destruct s; try discriminate Hvalid; reflexivity.
Qed.

Lemma matchers_reject_measurable_nodes_witness :
  find_measurable_clips (mk_fgraph (Some (mk_rv_map [])))
    (mk_node measurable_clip
       [TensorVariable 10
          (Some (mk_op (RandomVariable "dirac") "dirac" "dirac_rv" true, []))
          "float64" (Some "x");
        lower_c; upper_c] []) 12 = (Ok None, 12%nat)
  /\ find_measurable_roundings (mk_fgraph (Some (mk_rv_map [])))
       (mk_node measurable_clip
          [TensorVariable 10
             (Some (mk_op (RandomVariable "dirac") "dirac" "dirac_rv" true,
                    []))
             "float64" (Some "x");
           lower_c; upper_c] []) 12 = (Ok None, 12%nat).
Proof.
  apply (matchers_reject_measurable_nodes
           (mk_fgraph (Some (mk_rv_map [])))
           (clip_node x_rv lower_c upper_c "cens_x") 10
           [TensorVariable 11
              (Some (measurable_clip,
                     [TensorVariable 10
                        (Some (mk_op (RandomVariable "dirac") "dirac"
                                 "dirac_rv" true, []))
                        "float64" (Some "x");
                      lower_c; upper_c]))
              "float64" (Some "cens_x")]
           12
           (TensorVariable 11
              (Some (measurable_clip,
                     [TensorVariable 10
                        (Some (mk_op (RandomVariable "dirac") "dirac"
                                 "dirac_rv" true, []))
                        "float64" (Some "x");
                      lower_c; upper_c]))
              "float64" (Some "cens_x"))).
  - left. reflexivity.
  - left. reflexivity.
  - reflexivity.
Defined.

(** X16.  The two matchers never fire on the same node: where
    [find_measurable_clips] proposes a rewrite, [find_measurable_roundings]
    returns [None], and the other way round. *)
Theorem matchers_exclusive fgraph node next rs next' :
  (find_measurable_clips fgraph node next = (Ok (Some rs), next') ->
   forall k, find_measurable_roundings fgraph node k = (Ok None, k)) /\
  (find_measurable_roundings fgraph node next = (Ok (Some rs), next') ->
   forall k, find_measurable_clips fgraph node k = (Ok None, k)).
Proof.
  split; intros Hfind k.
  - apply find_measurable_clips_output in Hfind as (Hclip & _).
    apply find_measurable_roundings_other_op.
    destruct (scalar_op_of (node_op node)) as [[]|];
      try discriminate Hclip; reflexivity.
  - apply find_measurable_roundings_output in Hfind as (Hvalid & _).
    apply find_measurable_clips_other_op.
    destruct (scalar_op_of (node_op node)) as [[]|];
      try discriminate Hvalid; reflexivity.
Qed.

Lemma matchers_exclusive_witness :
  find_measurable_roundings (mk_fgraph (Some (mk_rv_map [])))
    (clip_node x_rv lower_c upper_c "cens_x") 10 = (Ok None, 10%nat).
Proof.
  apply (proj1 (matchers_exclusive (mk_fgraph (Some (mk_rv_map [])))
                  (clip_node x_rv lower_c upper_c "cens_x") 10
                  [TensorVariable 11
                     (Some (measurable_clip,
                            [TensorVariable 10
                               (Some (mk_op (RandomVariable "dirac") "dirac"
                                        "dirac_rv" true, []))
                               "float64" (Some "x");
                             lower_c; upper_c]))
                     "float64" (Some "cens_x")]
                  12)).
  reflexivity.
Defined.
